(** * ChessGPT: the move proposer, the auto-play loop and the game-state
      handlers of [src/app/page.tsx]

    The page is one React function component ([PlayEngine]) and two async
    helper functions ([chatCompletionsQuery], [completionsQuery]).  It sits
    between two libraries that are not part of the repository: the chess
    rules engine (chess.js) and the OpenAI client.  Both are taken as
    interfaces here: the engine as a type class of operations on the private
    state of a [ChessInstance], the client as the two suspension points
    [AwaitChat] and [AwaitCompl] of the program monad [Prog].

    JavaScript strings are sequences of UTF-16 code units; they are modelled
    as [list N].  The JSX of the view, the logging and the effect that
    creates the OpenAI client are not modelled. *)

From Stdlib Require Import NArith String Ascii List Lia Bool.
From stdpp Require Import base list gmap.

Local Open Scope N_scope.

(** ** JavaScript strings *)

Definition jsstring : Type := list N.

(** An ASCII literal as a JavaScript string. *)
Definition js (s : string) : jsstring :=
  List.map N_of_ascii (list_ascii_of_string s).
Arguments js s%_string.

(** [!s] is [true] exactly for the empty string. *)
Definition truthy (s : jsstring) : bool :=
  match s with
  | [] => false
  | _ :: _ => true
  end.

(** [a || b] on strings. *)
Definition or_else (a b : jsstring) : jsstring :=
  if truthy a then a else b.

(** The code units that [String.prototype.trim] strips: ECMAScript's
    WhiteSpace and LineTerminator productions (all in the BMP, so one code
    unit each). *)
Definition is_whitespace (c : N) : bool :=
  (c =? 9) || (c =? 10) || (c =? 11) || (c =? 12) || (c =? 13) || (c =? 32)
  || (c =? 160) || (c =? 5760)
  || ((8192 <=? c) && (c <=? 8202))
  || (c =? 8232) || (c =? 8233) || (c =? 8239) || (c =? 8287)
  || (c =? 12288) || (c =? 65279).

Fixpoint trimStart (s : jsstring) : jsstring :=
  match s with
  | [] => []
  | c :: s' => if is_whitespace c then trimStart s' else s
  end.

Definition trimEnd (s : jsstring) : jsstring :=
  rev (trimStart (rev s)).

(** [s.trim()] *)
Definition trim (s : jsstring) : jsstring :=
  trimEnd (trimStart s).

Definition SPACE : N := 32.
Definition PERIOD : N := 46.

(** [s.split(' ')]: the pieces between consecutive spaces; the empty string
    splits into one empty piece, and adjacent spaces give empty pieces. *)
Fixpoint split_space (s : jsstring) : list jsstring :=
  match s with
  | [] => [[]]
  | c :: s' =>
      if c =? SPACE then [] :: split_space s'
      else match split_space s' with
           | item :: items => (c :: item) :: items
           | [] => [[c]]
           end
  end.

(** [item.includes('.')] *)
Definition includes_period (item : jsstring) : bool :=
  existsb (fun c => c =? PERIOD) item.

(** [response_content.trim().split(' ').filter(item => !item.includes('.'))[0]];
    [None] is JavaScript's [undefined], the value of [[0]] on an empty
    array. *)
Definition extract_choice (response_content : jsstring) : option jsstring :=
  head (List.filter (fun item => negb (includes_period item))
                    (split_space (trim response_content))).


(** ** Constants and plain data of the page *)

Inductive Model : Type :=
| gpt_3_5_turbo_instruct
| gpt_4
| gpt_3_5_turbo.

(** The lookup table [useChatCompletions]. *)
Definition useChatCompletions (m : Model) : bool :=
  match m with
  | gpt_4 => true
  | gpt_3_5_turbo => true
  | gpt_3_5_turbo_instruct => false
  end.

Definition DEFAULT_MODEL : Model := gpt_3_5_turbo_instruct.

Definition QUOTE : N := 34.
Definition NEWLINE : N := 10.

(** One PGN tag pair followed by a line feed: [[name "value"]\n]. *)
Definition tag_line (name value : string) : jsstring :=
  js "[" ++ js name ++ js " " ++ [QUOTE] ++ js value ++ [QUOTE] ++ js "]"
  ++ [NEWLINE].

Definition DEFAULT_USER_PROMPT : jsstring :=
  tag_line "Event" "FIDE World Cup 2023"
  ++ tag_line "Site" "Baku AZE"
  ++ tag_line "Date" "2023.08.23"
  ++ tag_line "EventDate" "2021.07.30"
  ++ tag_line "Round" "8.2"
  ++ tag_line "Result" "1/2-1/2"
  ++ tag_line "White" "Magnus Carlsen"
  ++ tag_line "Black" "Rameshbabu Praggnanandhaa"
  ++ tag_line "ECO" "C48"
  ++ tag_line "WhiteElo" "2835"
  ++ tag_line "BlackElo" "2690"
  ++ tag_line "PlyCount" "60"
  ++ [NEWLINE].

Definition DEFAULT_SYSTEM_PROMPT : jsstring :=
  js "You are a Chess grandmaster that helps analyze and predict live chess games. Given the algebraic notation for a given match, predict the next move. Do not return anything except for the algebraic notation for your prediction.".

(** The fallback of [prompt + game.pgn() || '1. ']. *)
Definition MINIMAL_PREFIX : jsstring := js "1. ".

Definition MSG_NO_CHOICE : jsstring := js "No choice found".
Definition MSG_INVALID_PGN : jsstring := js "Invalid PGN provided".
Definition MSG_STOPPED : jsstring :=
  js "No/invalid move found by model after 3 retries. AutoPlay stopped.".
Definition MSG_TRY_AGAIN : jsstring :=
  js "No/invalid move found by model. Try again by clicking button above.".

(** The template [`Model suggests move: ${move}.`] *)
Definition msg_suggests (move : jsstring) : jsstring :=
  js "Model suggests move: " ++ move ++ js ".".

(** [game.turn()] is ['w'] or ['b']. *)
Inductive Color : Type := White | Black.

Inductive File : Type := fa | fb | fc | fd | fe | ff | fg | fh.
Inductive Rank : Type := r1 | r2 | r3 | r4 | r5 | r6 | r7 | r8.

(** chess.js's [Square], ["a1"] to ["h8"]. *)
Definition Square : Type := (File * Rank)%type.

Inductive Promotion : Type := prom_n | prom_b | prom_r | prom_q.

(** The argument of [game.move]: a [ShortMove] object or a notation
    string. *)
Inductive MoveArg : Type :=
| ShortMove (from to : Square) (promotion : option Promotion)
| SanMove (san : jsstring).

(** The sampling parameters passed with every request. *)
Record Sampling : Type := {
  temperature : N;
  max_tokens : N;
  top_p : N;
  frequency_penalty : N;
  presence_penalty : N
}.

Definition sampling : Sampling :=
  {| temperature := 1; max_tokens := 10; top_p := 1;
     frequency_penalty := 0; presence_penalty := 0 |}.

(** The argument of [openai.chat.completions.create]: a system message
    followed by a user message. *)
Record ChatRequest : Type := {
  chat_model : Model;
  chat_system : jsstring;
  chat_user : jsstring;
  chat_sampling : Sampling
}.

(** The argument of [openai.completions.create]. *)
Record ComplRequest : Type := {
  compl_prompt : jsstring;
  compl_model : Model;
  compl_sampling : Sampling
}.

(** A [ChessInstance] as the page holds it.  The page calls [move] and
    [load_pgn] on spread copies of the instance, so the methods are own
    properties of the object: chess.js returns it from a constructor
    function that keeps board, turn and history in its local variables, and
    the methods close over them.  The spread [{ ...game }] copies the
    properties, not those variables: it makes a new object ([oid]) whose
    methods work on the same private state ([inst]).  Hence [game], every
    copy of it and the [game] of every older render denote one game, and
    [autoPlay] and [makeChatCompletionsMove] see the moves made since the
    render that created them. *)
Record ChessInstance : Type := {
  oid : nat;
  inst : nat
}.

(** The values one render of [PlayEngine] binds with [useState].  Every
    function declared in the component body ([autoPlay], [movePiece],
    [onDrop], ...) is a closure over the constants of the render that
    created it, so such a function is modelled as a function of an [Env]. *)
Record Env : Type := {
  game : ChessInstance;
  model : Model;
  lastMessage : jsstring;
  PGNInput : jsstring;
  systemPrompt : jsstring;
  userPrompt : jsstring;
  retryCount : N;
  isAutoPlay : bool;
  model2 : Model
}.

Definition with_game (g : ChessInstance) (e : Env) : Env :=
  {| game := g; model := model e; lastMessage := lastMessage e;
     PGNInput := PGNInput e; systemPrompt := systemPrompt e;
     userPrompt := userPrompt e; retryCount := retryCount e;
     isAutoPlay := isAutoPlay e; model2 := model2 e |}.

Definition with_model (m : Model) (e : Env) : Env :=
  {| game := game e; model := m; lastMessage := lastMessage e;
     PGNInput := PGNInput e; systemPrompt := systemPrompt e;
     userPrompt := userPrompt e; retryCount := retryCount e;
     isAutoPlay := isAutoPlay e; model2 := model2 e |}.

Definition with_lastMessage (s : jsstring) (e : Env) : Env :=
  {| game := game e; model := model e; lastMessage := s;
     PGNInput := PGNInput e; systemPrompt := systemPrompt e;
     userPrompt := userPrompt e; retryCount := retryCount e;
     isAutoPlay := isAutoPlay e; model2 := model2 e |}.

Definition with_PGNInput (s : jsstring) (e : Env) : Env :=
  {| game := game e; model := model e; lastMessage := lastMessage e;
     PGNInput := s; systemPrompt := systemPrompt e;
     userPrompt := userPrompt e; retryCount := retryCount e;
     isAutoPlay := isAutoPlay e; model2 := model2 e |}.

Definition with_systemPrompt (s : jsstring) (e : Env) : Env :=
  {| game := game e; model := model e; lastMessage := lastMessage e;
     PGNInput := PGNInput e; systemPrompt := s;
     userPrompt := userPrompt e; retryCount := retryCount e;
     isAutoPlay := isAutoPlay e; model2 := model2 e |}.

Definition with_userPrompt (s : jsstring) (e : Env) : Env :=
  {| game := game e; model := model e; lastMessage := lastMessage e;
     PGNInput := PGNInput e; systemPrompt := systemPrompt e;
     userPrompt := s; retryCount := retryCount e;
     isAutoPlay := isAutoPlay e; model2 := model2 e |}.

Definition with_retryCount (n : N) (e : Env) : Env :=
  {| game := game e; model := model e; lastMessage := lastMessage e;
     PGNInput := PGNInput e; systemPrompt := systemPrompt e;
     userPrompt := userPrompt e; retryCount := n;
     isAutoPlay := isAutoPlay e; model2 := model2 e |}.

Definition with_isAutoPlay (b : bool) (e : Env) : Env :=
  {| game := game e; model := model e; lastMessage := lastMessage e;
     PGNInput := PGNInput e; systemPrompt := systemPrompt e;
     userPrompt := userPrompt e; retryCount := retryCount e;
     isAutoPlay := b; model2 := model2 e |}.

Definition with_model2 (m : Model) (e : Env) : Env :=
  {| game := game e; model := model e; lastMessage := lastMessage e;
     PGNInput := PGNInput e; systemPrompt := systemPrompt e;
     userPrompt := userPrompt e; retryCount := retryCount e;
     isAutoPlay := isAutoPlay e; model2 := m |}.

(** ** The chess rules engine

    What the functions of the page call of chess.js, as operations on the
    private state ([Position]) of an instance ([fen], which only the JSX
    reads, is left out).  The two mutating methods return their
    JavaScript result together with the private state they leave behind. *)
Class ChessEngine : Type := {
  Position : Type;
  Move : Type;
  (** [new Chess()] *)
  start : Position;
  (** [game.moves()] *)
  moves : Position -> list jsstring;
  (** [game.game_over()] *)
  game_over : Position -> bool;
  (** [game.in_draw()] *)
  in_draw : Position -> bool;
  (** [game.pgn()] *)
  pgn : Position -> jsstring;
  (** [game.turn()] *)
  turn : Position -> Color;
  (** [game.move(m)]: the realized move or [null] *)
  move : Position -> MoveArg -> option Move * Position;
  (** [game.load_pgn(text)] *)
  load_pgn : Position -> jsstring -> bool * Position
}.

Section Page.
Context `{Engine : ChessEngine}.

(** ** Programs

    The synchronous operations a function of the page performs: calls of
    chess.js methods on an instance, React state setters, the ref
    [isAutoPlayRef], and timers.  The only callback the page ever passes to
    a timer it keeps is [autoPlay]; a timer therefore holds the [Env] of the
    render whose [autoPlay] closure it was given. *)
Inductive op : Type -> Type :=
| NewChess : op ChessInstance
| Spread (g : ChessInstance) : op ChessInstance
| CallMoves (g : ChessInstance) : op (list jsstring)
| CallGameOver (g : ChessInstance) : op bool
| CallInDraw (g : ChessInstance) : op bool
| CallPgn (g : ChessInstance) : op jsstring
| CallTurn (g : ChessInstance) : op Color
| CallMove (g : ChessInstance) (m : MoveArg) : op (option Move)
| CallLoadPgn (g : ChessInstance) (text : jsstring) : op bool
| SetGame (g : ChessInstance) : op unit
| SetLastMessage (s : jsstring) : op unit
| SetPGNInput (s : jsstring) : op unit
| SetRetryCount (n : N) : op unit
| SetIsAutoPlay (b : bool) : op unit
| ReadAutoPlayRef : op bool
| WriteAutoPlayRef (b : bool) : op unit
| SetTimeoutAutoPlay (closure : Env) : op nat
| ClearTimeout (id : nat) : op unit.

(** A function body.  [Throw] is [throw new Error(msg)]; [AwaitChat] and
    [AwaitCompl] are [await openai.chat.completions.create(r)] and
    [await openai.completions.create(r)], continued with
    [choices[0].message.content] (a string or [null]) and [choices[0].text];
    [Spawn child k] calls the async function [child] without awaiting it.
    The [console.log] and [console.error] calls are left out. *)
Inductive Prog (A : Type) : Type :=
| Ret (a : A)
| Throw (msg : jsstring)
| Do {X : Type} (o : op X) (k : X -> Prog A)
| AwaitChat (r : ChatRequest) (k : option jsstring -> Prog A)
| AwaitCompl (r : ComplRequest) (k : jsstring -> Prog A)
| Spawn (child : Prog unit) (k : Prog A).

Arguments Ret {A} a.
Arguments Throw {A} msg.
Arguments Do {A X} o k.
Arguments AwaitChat {A} r k.
Arguments AwaitCompl {A} r k.
Arguments Spawn {A} child k.

Fixpoint bind {A B : Type} (p : Prog A) (f : A -> Prog B) : Prog B :=
  match p with
  | Ret a => f a
  | Throw msg => Throw msg
  | Do o k => Do o (fun x => bind (k x) f)
  | AwaitChat r k => AwaitChat r (fun x => bind (k x) f)
  | AwaitCompl r k => AwaitCompl r (fun x => bind (k x) f)
  | Spawn child k => Spawn child (bind k f)
  end.

Definition call {X : Type} (o : op X) : Prog X := Do o Ret.

Declare Scope prog_scope.
Notation "x <- m ;; k" := (bind m (fun x => k))
  (at level 100, m at next level, k at level 200, right associativity)
  : prog_scope.
Notation "m ;; k" := (bind m (fun _ => k))
  (at level 100, k at level 200, right associativity) : prog_scope.
Local Open Scope prog_scope.

(** ** The move proposer *)

(** [possibleMoves.find((move) => move === choice)]; an [undefined]
    choice is equal to no string. *)
Definition find_choice (possibleMoves : list jsstring)
    (choice : option jsstring) : option jsstring :=
  match choice with
  | Some c => List.find (fun move => bool_decide (move = c)) possibleMoves
  | None => None
  end.

(** The test [if (!move)]: [undefined], [null] and the empty string are
    falsy, so a move gets past it only as a non-empty string.  In the query
    functions this is [if (!move) return null; return move;]. *)
Definition move_or_null (move : option jsstring) : option jsstring :=
  match move with
  | Some m => if truthy m then Some m else None
  | None => None
  end.

(** Lines 50-54 and 74-78: from the reply text to the returned value. *)
Definition choose (possibleMoves : list jsstring)
    (response_content : jsstring) : option jsstring :=
  move_or_null (find_choice possibleMoves (extract_choice response_content)).

(** [prompt + game.pgn() || '1. ']: [+] binds tighter than [||]. *)
Definition request_text (prompt pgn_text : jsstring) : jsstring :=
  or_else (prompt ++ pgn_text) MINIMAL_PREFIX.

(** Lines 48-54: what [chatCompletionsQuery] does with the response. *)
Definition chatCompletionsReply (possibleMoves : list jsstring)
    (content : option jsstring) : Prog (option jsstring) :=
  match content with
  | None => Throw MSG_NO_CHOICE
  | Some response_content =>
      if truthy response_content
      then Ret (choose possibleMoves response_content)
      else Throw MSG_NO_CHOICE
  end.

(** Lines 73-78: what [completionsQuery] does with the response. *)
Definition completionsReply (possibleMoves : list jsstring)
    (response_content : jsstring) : Prog (option jsstring) :=
  Ret (choose possibleMoves response_content).

Definition chatCompletionsQuery (model : Model) (game : ChessInstance)
    (system prompt : jsstring) : Prog (option jsstring) :=
  possibleMoves <- call (CallMoves game);;
  over <- call (CallGameOver game);;
  ended <- (if over then Ret true else call (CallInDraw game));;
  if ended || bool_decide (length possibleMoves = 0%nat) then Ret None
  else
    pgn_text <- call (CallPgn game);;
    AwaitChat {| chat_model := model;
                 chat_system := system;
                 chat_user := request_text prompt pgn_text;
                 chat_sampling := sampling |}
      (chatCompletionsReply possibleMoves).

Definition completionsQuery (model : Model) (game : ChessInstance)
    (prompt : jsstring) : Prog (option jsstring) :=
  possibleMoves <- call (CallMoves game);;
  over <- call (CallGameOver game);;
  ended <- (if over then Ret true else call (CallInDraw game));;
  if ended || bool_decide (length possibleMoves = 0%nat) then Ret None
  else
    pgn_text <- call (CallPgn game);;
    AwaitCompl {| compl_prompt := request_text prompt pgn_text;
                  compl_model := model;
                  compl_sampling := sampling |}
      (completionsReply possibleMoves).

(** ** The component *)

Definition movePiece (env : Env) (m : MoveArg) : Prog (option Move) :=
  gameCopy <- call (Spread (game env));;
  result <- call (CallMove gameCopy m);;
  call (SetGame gameCopy);;
  Ret result.

(** Lines 132-147 of [autoPlay]: what it does with the value the query
    function returned. *)
Definition autoPlayAfter (env : Env) (move : option jsstring) : Prog unit :=
  match move_or_null move with
  | None =>
      if retryCount env <? 3 then
        call (SetRetryCount (retryCount env + 1));;
        call (SetTimeoutAutoPlay env);;
        Ret tt
      else
        call (SetIsAutoPlay false);;
        call (SetRetryCount 0);;
        call (SetLastMessage MSG_STOPPED)
  | Some move =>
      call (SetRetryCount 0);;
      call (SetLastMessage (msg_suggests move));;
      movePiece env (SanMove move);;
      call (SetTimeoutAutoPlay env);;
      Ret tt
  end.

(** [game.turn() === 'w' ? model : model2] *)
Definition model_for (env : Env) (side : Color) : Model :=
  match side with
  | White => model env
  | Black => model2 env
  end.

(** [autoPlay] names itself in [setTimeout(autoPlay, 200)]: the timer gets
    the closure that is running, with the [Env] it was created in. *)
Definition autoPlay (env : Env) : Prog unit :=
  live <- call ReadAutoPlayRef;;
  if negb live then Ret tt
  else
    side <- call (CallTurn (game env));;
    let currentModel := model_for env side in
    move <- (if useChatCompletions currentModel
             then chatCompletionsQuery currentModel (game env)
                    (systemPrompt env) (userPrompt env)
             else completionsQuery currentModel (game env) (userPrompt env));;
    autoPlayAfter env move.

Definition resetBoard (env : Env) : Prog unit :=
  fresh <- call NewChess;;
  call (SetGame fresh);;
  call (SetLastMessage []).

Definition setGameStateFromPGN (env : Env) (text : jsstring) : Prog unit :=
  gameCopy <- call (Spread (game env));;
  isLoaded <- call (CallLoadPgn gameCopy text);;
  if negb isLoaded then
    call (SetPGNInput MSG_INVALID_PGN)
  else
    call (SetPGNInput []);;
    again <- call (Spread gameCopy);;
    call (SetGame again).

Definition makeChatCompletionsMove (env : Env) : Prog unit :=
  move <- chatCompletionsQuery (model env) (game env)
            (systemPrompt env) (userPrompt env);;
  match move_or_null move with
  | None => call (SetLastMessage MSG_TRY_AGAIN)
  | Some move =>
      call (SetLastMessage (msg_suggests move));;
      movePiece env (SanMove move);;
      Ret tt
  end.

Definition makeCompletionsMove (env : Env) : Prog unit :=
  move <- completionsQuery (model env) (game env) (userPrompt env);;
  match move_or_null move with
  | None => call (SetLastMessage MSG_TRY_AGAIN)
  | Some move =>
      call (SetLastMessage (msg_suggests move));;
      movePiece env (SanMove move);;
      Ret tt
  end.

(** Lines 176-178 and 183-185: what [makeChatCompletionsMove] and
    [makeCompletionsMove] do with the value the query function returned. *)
Definition makeMoveAfter (env : Env) (move : option jsstring) : Prog unit :=
  match move_or_null move with
  | None => call (SetLastMessage MSG_TRY_AGAIN)
  | Some move =>
      call (SetLastMessage (msg_suggests move));;
      movePiece env (SanMove move);;
      Ret tt
  end.

(** [useChatCompletions[model] ? makeChatCompletionsMove() :
    makeCompletionsMove()], the body of the force-move button's [onClick]
    and the last statement but one of [onDrop]. *)
Definition makeMove (env : Env) : Prog unit :=
  if useChatCompletions (model env) then makeChatCompletionsMove env
  else makeCompletionsMove env.

Definition onDrop (env : Env) (sourceSquare targetSquare : Square)
    (piece : jsstring) : Prog bool :=
  move <- movePiece env (ShortMove sourceSquare targetSquare (Some prom_q));;
  match move with
  | None => Ret false
  | Some _ =>
      call (SetIsAutoPlay false);;
      Spawn (makeMove env) (Ret true)
  end.

(** The effect [useEffect(() => { ... }, [isAutoPlay])] of lines 108-118;
    its result is the [timeoutId] its cleanup closes over. *)
Definition autoPlayEffect (env : Env) : Prog (option nat) :=
  if isAutoPlay env then
    timeoutId <- call (SetTimeoutAutoPlay env);;
    Ret (Some timeoutId)
  else Ret None.

Definition autoPlayEffectCleanup (timeoutId : option nat) : Prog unit :=
  match timeoutId with
  | Some id => call (ClearTimeout id)
  | None => Ret tt
  end.

(** The effect of lines 120-122. *)
Definition refEffect (env : Env) : Prog unit :=
  call (WriteAutoPlayRef (isAutoPlay env)).

(** The [onClick] of the auto-play button. *)
Definition toggleAutoPlay (env : Env) : Prog unit :=
  call (SetIsAutoPlay (negb (isAutoPlay env))).

(** What React runs after a render in which [isAutoPlay] changed: the
    cleanup of the previous auto-play effect, the auto-play effect and the
    ref effect of the new render.  The result is the new [timeoutId]. *)
Definition effects (env : Env) (timeoutId : option nat) : Prog (option nat) :=
  autoPlayEffectCleanup timeoutId;;
  timeoutId' <- autoPlayEffect env;;
  refEffect env;;
  Ret timeoutId'.

(** ** The state of the running page *)

(** An async function suspended at its [await]. *)
Inductive Waiting (A : Type) : Type :=
| WaitChat (r : ChatRequest) (k : option jsstring -> Prog A)
| WaitCompl (r : ComplRequest) (k : jsstring -> Prog A).

Arguments WaitChat {A} r k.
Arguments WaitCompl {A} r k.

Record State : Type := {
  (** the current values of the [useState] cells *)
  cells : Env;
  (** [isAutoPlayRef.current] *)
  autoPlayRef : bool;
  (** the private state of every chess instance created so far *)
  heap : gmap nat Position;
  next_inst : nat;
  next_oid : nat;
  (** the [autoPlay] closures waiting on a timer *)
  timers : list (nat * Env);
  next_timer : nat;
  (** the [timeoutId] the cleanup of the last auto-play effect holds *)
  effectTimeoutId : option nat;
  (** the requests in flight, each with the function awaiting it *)
  pending : list (nat * Waiting unit);
  next_request : nat
}.

Definition set_cells (f : Env -> Env) (st : State) : State :=
  {| cells := f (cells st); autoPlayRef := autoPlayRef st; heap := heap st;
     next_inst := next_inst st; next_oid := next_oid st;
     timers := timers st; next_timer := next_timer st;
     effectTimeoutId := effectTimeoutId st;
     pending := pending st; next_request := next_request st |}.

Definition set_autoPlayRef (b : bool) (st : State) : State :=
  {| cells := cells st; autoPlayRef := b; heap := heap st;
     next_inst := next_inst st; next_oid := next_oid st;
     timers := timers st; next_timer := next_timer st;
     effectTimeoutId := effectTimeoutId st;
     pending := pending st; next_request := next_request st |}.

Definition set_heap (h : gmap nat Position) (st : State) : State :=
  {| cells := cells st; autoPlayRef := autoPlayRef st; heap := h;
     next_inst := next_inst st; next_oid := next_oid st;
     timers := timers st; next_timer := next_timer st;
     effectTimeoutId := effectTimeoutId st;
     pending := pending st; next_request := next_request st |}.

Definition set_next_inst (n : nat) (st : State) : State :=
  {| cells := cells st; autoPlayRef := autoPlayRef st; heap := heap st;
     next_inst := n; next_oid := next_oid st;
     timers := timers st; next_timer := next_timer st;
     effectTimeoutId := effectTimeoutId st;
     pending := pending st; next_request := next_request st |}.

Definition set_next_oid (n : nat) (st : State) : State :=
  {| cells := cells st; autoPlayRef := autoPlayRef st; heap := heap st;
     next_inst := next_inst st; next_oid := n;
     timers := timers st; next_timer := next_timer st;
     effectTimeoutId := effectTimeoutId st;
     pending := pending st; next_request := next_request st |}.

Definition set_timers (l : list (nat * Env)) (st : State) : State :=
  {| cells := cells st; autoPlayRef := autoPlayRef st; heap := heap st;
     next_inst := next_inst st; next_oid := next_oid st;
     timers := l; next_timer := next_timer st;
     effectTimeoutId := effectTimeoutId st;
     pending := pending st; next_request := next_request st |}.

Definition set_next_timer (n : nat) (st : State) : State :=
  {| cells := cells st; autoPlayRef := autoPlayRef st; heap := heap st;
     next_inst := next_inst st; next_oid := next_oid st;
     timers := timers st; next_timer := n;
     effectTimeoutId := effectTimeoutId st;
     pending := pending st; next_request := next_request st |}.

Definition set_effectTimeoutId (t : option nat) (st : State) : State :=
  {| cells := cells st; autoPlayRef := autoPlayRef st; heap := heap st;
     next_inst := next_inst st; next_oid := next_oid st;
     timers := timers st; next_timer := next_timer st;
     effectTimeoutId := t;
     pending := pending st; next_request := next_request st |}.

Definition set_pending (l : list (nat * Waiting unit)) (st : State) : State :=
  {| cells := cells st; autoPlayRef := autoPlayRef st; heap := heap st;
     next_inst := next_inst st; next_oid := next_oid st;
     timers := timers st; next_timer := next_timer st;
     effectTimeoutId := effectTimeoutId st;
     pending := l; next_request := next_request st |}.

Definition set_next_request (n : nat) (st : State) : State :=
  {| cells := cells st; autoPlayRef := autoPlayRef st; heap := heap st;
     next_inst := next_inst st; next_oid := next_oid st;
     timers := timers st; next_timer := next_timer st;
     effectTimeoutId := effectTimeoutId st;
     pending := pending st; next_request := n |}.

(** The private state behind an instance object. *)
Definition position_of (st : State) (g : ChessInstance) : Position :=
  default start (heap st !! inst g).

(** The position the page shows: that of the instance in the [game]
    cell. *)
Definition current_position (st : State) : Position :=
  position_of st (game (cells st)).

Definition drop_id {V : Type} (id : nat) (l : list (nat * V)) : list (nat * V) :=
  List.filter (fun entry => negb (Nat.eqb (fst entry) id)) l.

Definition find_id {V : Type} (id : nat) (l : list (nat * V)) : option V :=
  snd <$> List.find (fun entry => Nat.eqb (fst entry) id) l.

(** One synchronous operation. *)
Definition perform {X : Type} (o : op X) (st : State) : X * State :=
  match o in op X return X * State with
  | NewChess =>
      ({| oid := next_oid st; inst := next_inst st |},
       set_next_oid (S (next_oid st))
         (set_next_inst (S (next_inst st))
            (set_heap (<[next_inst st := start]> (heap st)) st)))
  | Spread g =>
      ({| oid := next_oid st; inst := inst g |},
       set_next_oid (S (next_oid st)) st)
  | CallMoves g => (moves (position_of st g), st)
  | CallGameOver g => (game_over (position_of st g), st)
  | CallInDraw g => (in_draw (position_of st g), st)
  | CallPgn g => (pgn (position_of st g), st)
  | CallTurn g => (turn (position_of st g), st)
  | CallMove g m =>
      let r := move (position_of st g) m in
      (fst r, set_heap (<[inst g := snd r]> (heap st)) st)
  | CallLoadPgn g text =>
      let r := load_pgn (position_of st g) text in
      (fst r, set_heap (<[inst g := snd r]> (heap st)) st)
  | SetGame g => (tt, set_cells (with_game g) st)
  | SetLastMessage s => (tt, set_cells (with_lastMessage s) st)
  | SetPGNInput s => (tt, set_cells (with_PGNInput s) st)
  | SetRetryCount n => (tt, set_cells (with_retryCount n) st)
  | SetIsAutoPlay b => (tt, set_cells (with_isAutoPlay b) st)
  | ReadAutoPlayRef => (autoPlayRef st, st)
  | WriteAutoPlayRef b => (tt, set_autoPlayRef b st)
  | SetTimeoutAutoPlay closure =>
      (next_timer st,
       set_next_timer (S (next_timer st))
         (set_timers (timers st ++ [(next_timer st, closure)]) st))
  | ClearTimeout id => (tt, set_timers (drop_id id (timers st)) st)
  end.

(** How a call ends: it returned, it threw, or it is suspended at an
    [await]. *)
Inductive Outcome (A : Type) : Type :=
| Done (a : A) (st : State)
| Raised (msg : jsstring) (st : State)
| Suspended (w : Waiting A) (st : State).

Arguments Done {A} a st.
Arguments Raised {A} msg st.
Arguments Suspended {A} w st.

(** The model a suspended call has named in its request. *)
Definition model_asked {A : Type} (w : Waiting A) : Model :=
  match w with
  | WaitChat request _ => chat_model request
  | WaitCompl request _ => compl_model request
  end.

(** The function awaiting in [w], followed by [f]. *)
Definition then_wait {A B : Type} (w : Waiting A) (f : A -> Prog B)
    : Waiting B :=
  match w with
  | WaitChat request k => WaitChat request (fun x => bind (k x) f)
  | WaitCompl request k => WaitCompl request (fun x => bind (k x) f)
  end.

(** The text a call suspended at its [await] has sent to the service: the
    content of the user message or the prompt. *)
Definition text_sent {A : Type} (r : Outcome A) : option jsstring :=
  match r with
  | Suspended (WaitChat request _) _ => Some (chat_user request)
  | Suspended (WaitCompl request _) _ => Some (compl_prompt request)
  | Done _ _ => None
  | Raised _ _ => None
  end.

(** The state a call that nobody awaits leaves behind: a suspended one is
    put with the requests in flight, a rejection is not handled. *)
Definition settle (r : Outcome unit) : State :=
  match r with
  | Done _ st => st
  | Raised _ st => st
  | Suspended w st =>
      set_next_request (S (next_request st))
        (set_pending (pending st ++ [(next_request st, w)]) st)
  end.

(** Run a function up to its end or its first [await]. *)
Fixpoint run {A : Type} (p : Prog A) (st : State) : Outcome A :=
  match p with
  | Ret a => Done a st
  | Throw msg => Raised msg st
  | Do o k => let r := perform o st in run (k (fst r)) (snd r)
  | AwaitChat r k => Suspended (WaitChat r k) st
  | AwaitCompl r k => Suspended (WaitCompl r k) st
  | Spawn child k => run k (settle (run child st))
  end.

(** After the render that follows a state change, React runs the effects
    whose dependency [isAutoPlay] changed. *)
Definition commit (before st : State) : State :=
  if bool_decide (isAutoPlay (cells st) = isAutoPlay (cells before)) then st
  else
    match run (effects (cells st) (effectTimeoutId st)) st with
    | Done timeoutId st' => set_effectTimeoutId timeoutId st'
    | Raised _ st' => st'
    | Suspended _ st' => st'
    end.

(** One turn of the event loop: a handler runs to its end or to its first
    [await], then React renders and runs the effects. *)
Definition dispatch (handler : Prog unit) (st : State) : State :=
  commit st (settle (run handler st)).

(** What can happen to the page: user actions on the controls of the view,
    a timer coming due, and the end of a request in flight. *)
Inductive Event : Type :=
| ClickAutoPlay
| ClickReset
| ClickForceMove
| ClickSetPGN
| PieceDrop (sourceSquare targetSquare : Square) (piece : jsstring)
| ChangeModel (m : Model)
| ChangeModel2 (m : Model)
| ChangePGNInput (s : jsstring)
| ChangeSystemPrompt (s : jsstring)
| ChangeUserPrompt (s : jsstring)
| TimerFires (id : nat)
| ChatResolves (id : nat) (content : option jsstring)
| ComplResolves (id : nat) (text : jsstring)
| RequestRejects (id : nat) (reason : jsstring).

(** User actions reach the handlers of the latest render, closed over the
    current cells; a timer runs the closure it was given; a resolved
    request continues the function that awaits it. *)
Definition step (ev : Event) (st : State) : State :=
  let env := cells st in
  match ev with
  | ClickAutoPlay => dispatch (toggleAutoPlay env) st
  | ClickReset => dispatch (resetBoard env) st
  | ClickForceMove => dispatch (makeMove env) st
  | ClickSetPGN => dispatch (setGameStateFromPGN env (PGNInput env)) st
  | PieceDrop sourceSquare targetSquare piece =>
      dispatch (accepted <- onDrop env sourceSquare targetSquare piece;; Ret tt) st
  | ChangeModel m => set_cells (with_model m) st
  | ChangeModel2 m => set_cells (with_model2 m) st
  | ChangePGNInput s => set_cells (with_PGNInput s) st
  | ChangeSystemPrompt s => set_cells (with_systemPrompt s) st
  | ChangeUserPrompt s => set_cells (with_userPrompt s) st
  | TimerFires id =>
      match find_id id (timers st) with
      | Some closure =>
          dispatch (autoPlay closure) (set_timers (drop_id id (timers st)) st)
      | None => st
      end
  | ChatResolves id content =>
      match find_id id (pending st) with
      | Some (WaitChat _ k) =>
          dispatch (k content) (set_pending (drop_id id (pending st)) st)
      | _ => st
      end
  | ComplResolves id text =>
      match find_id id (pending st) with
      | Some (WaitCompl _ k) =>
          dispatch (k text) (set_pending (drop_id id (pending st)) st)
      | _ => st
      end
  | RequestRejects id reason =>
      match find_id id (pending st) with
      | Some _ =>
          dispatch (Throw reason) (set_pending (drop_id id (pending st)) st)
      | None => st
      end
  end.

Definition steps (evs : list Event) (st : State) : State :=
  fold_left (fun s ev => step ev s) evs st.

(** The models named by the requests that went out between two states. *)
Definition models_asked (before after : State) : list Model :=
  List.map (fun entry => model_asked (snd entry))
    (drop (length (pending before)) (pending after)).

(** The page after its first render: the initial values of the cells, one
    chess instance, nothing scheduled. *)
Definition mounted : State :=
  {| cells := {| game := {| oid := 0; inst := 0 |};
                 model := DEFAULT_MODEL;
                 lastMessage := [];
                 PGNInput := [];
                 systemPrompt := DEFAULT_SYSTEM_PROMPT;
                 userPrompt := DEFAULT_USER_PROMPT;
                 retryCount := 0;
                 isAutoPlay := false;
                 model2 := DEFAULT_MODEL |};
     autoPlayRef := false;
     heap := {[ 0%nat := start ]};
     next_inst := 1;
     next_oid := 1;
     timers := [];
     next_timer := 0;
     effectTimeoutId := None;
     pending := [];
     next_request := 0 |}.

End Page.

Arguments Ret {Engine A} a.
Arguments Throw {Engine A} msg.
Arguments Do {Engine A X} o k.
Arguments AwaitChat {Engine A} r k.
Arguments AwaitCompl {Engine A} r k.
Arguments Spawn {Engine A} child k.
Arguments WaitChat {Engine A} r k.
Arguments WaitCompl {Engine A} r k.
Arguments Done {Engine A} a st.
Arguments Raised {Engine A} msg st.
Arguments Suspended {Engine A} w st.

(** ** A small engine to run the page on

    Positions are the list of moves played; White may always play [e4],
    [d4] or [Nf3], Black [e5], [d5] or [Nf6], and the game is over after
    four plies.  It stands in for chess.js where a statement is evaluated
    on concrete input. *)
Module Toy.

Definition san_of_square (sq : Square) : jsstring :=
  [match fst sq with
   | fa => 97 | fb => 98 | fc => 99 | fd => 100
   | fe => 101 | ff => 102 | fg => 103 | fh => 104
   end;
   match snd sq with
   | r1 => 49 | r2 => 50 | r3 => 51 | r4 => 52
   | r5 => 53 | r6 => 54 | r7 => 55 | r8 => 56
   end].

Definition toy_turn (played : list jsstring) : Color :=
  if Nat.even (length played) then White else Black.

Definition toy_game_over (played : list jsstring) : bool :=
  Nat.leb 4 (length played).

Definition toy_moves (played : list jsstring) : list jsstring :=
  if toy_game_over played then []
  else match toy_turn played with
       | White => [js "e4"; js "d4"; js "Nf3"]
       | Black => [js "e5"; js "d5"; js "Nf6"]
       end.

(** The movetext [1. e4 e5 2. Nf3 ...] of the moves from ply [ply] on. *)
Fixpoint movetext (ply : nat) (played : list jsstring) : jsstring :=
  match played with
  | [] => []
  | san :: rest =>
      (if Nat.even ply
       then (if Nat.eqb ply 0 then [] else js " ")
            ++ [48 + N.of_nat (S (Nat.div2 ply))] ++ js ". "
       else js " ")
      ++ san ++ movetext (S ply) rest
  end.

Definition toy_san (m : MoveArg) : jsstring :=
  match m with
  | ShortMove _ to _ => san_of_square to
  | SanMove san => san
  end.

Definition toy_move (played : list jsstring) (m : MoveArg)
    : option jsstring * list jsstring :=
  if existsb (fun legal => bool_decide (legal = toy_san m)) (toy_moves played)
  then (Some (toy_san m), played ++ [toy_san m])
  else (None, played).

(** Replay the tokens of a movetext; [None] at the first token that cannot
    be played, with the moves played up to there. *)
Fixpoint replay (tokens : list jsstring) (played : list jsstring)
    : bool * list jsstring :=
  match tokens with
  | [] => (true, played)
  | token :: rest =>
      match toy_move played (SanMove token) with
      | (Some _, played') => replay rest played'
      | (None, _) => (false, played)
      end
  end.

Definition pgn_tokens (text : jsstring) : list jsstring :=
  List.filter (fun item => truthy item && negb (includes_period item))
              (split_space (trim text)).

(** [restores = true]: a load that fails leaves the instance as it was.
    [restores = false]: a load starts from the initial position and a
    failing one stops where the text stopped being playable. *)
Definition toy_load_pgn (restores : bool) (played : list jsstring)
    (text : jsstring) : bool * list jsstring :=
  match replay (pgn_tokens text) [] with
  | (true, played') => (true, played')
  | (false, partial) => (false, if restores then played else partial)
  end.

Definition engine (restores : bool) : ChessEngine :=
  {| Position := list jsstring;
     Move := jsstring;
     start := [];
     moves := toy_moves;
     game_over := toy_game_over;
     in_draw := fun _ => false;
     pgn := movetext 0;
     turn := toy_turn;
     move := toy_move;
     load_pgn := toy_load_pgn restores |}.

(** The engine whose failed loads change nothing. *)
Definition restoring : ChessEngine := engine true.

(** The engine whose failed loads stop half-way, as those of chess.js do:
    its [load_pgn] resets the instance and plays the moves as it reads
    them.  The two engines differ in nothing else. *)
Definition replaying : ChessEngine := engine false.

(** The freshly mounted page with the moves [played] on its board. *)
Definition page_after (E : ChessEngine) (played : @Position E) : @State E :=
  set_heap {[ 0%nat := played ]} mounted.

(** The reply texts of the scenarios of the specification. *)
Definition REPLY_E4 : jsstring := js "1. e4 is strong".
Definition REPLY_REFUSAL : jsstring := js "I cannot help with that.".

(** The wake-ups number [first] to [first + n - 1] of the auto-play loop,
    each answered by the completion service with a refusal. *)
Fixpoint refusals (first n : nat) : list Event :=
  match n with
  | O => []
  | S n' =>
      TimerFires first :: ComplResolves first REPLY_REFUSAL
      :: refusals (S first) n'
  end.

(** Auto-play is switched on on the fresh page and every wake-up is
    answered with a refusal, [n] times in a row. *)
Definition refused (n : nat) : list Event :=
  ClickAutoPlay :: refusals 0 n.

(** Auto-play is switched on, its first request goes out, auto-play is
    switched off, and the request resolves with a legal move. *)
Definition switch_off_in_flight : list Event :=
  [ClickAutoPlay; TimerFires 0; ClickAutoPlay; ComplResolves 0 (js "e4")].

(** The closure every timer of a loop started on the fresh page holds: the
    cells of the render in which auto-play was switched on. *)
Definition first_closure : Env :=
  with_isAutoPlay true (cells (page_after restoring [])).

(** The page between two wake-ups of that loop, [n] wake-ups having ended
    with no move. *)
Definition between_wakeups (n : nat) : @State restoring :=
  {| cells := with_retryCount (match n with O => 0 | S _ => 1 end) first_closure;
     autoPlayRef := true;
     heap := {[ 0%nat := [] ]};
     next_inst := 1;
     next_oid := 1;
     timers := [(n, first_closure)];
     next_timer := S n;
     effectTimeoutId := Some 0%nat;
     pending := [];
     next_request := n |}.

End Toy.

(** ** Candidate extraction in the words of the specification

    "Trim whitespace, split on spaces, discard tokens containing a period,
    take the first remaining token as the candidate", stated as relations
    and without reference to the functions above. *)
Module Words.

Definition all_whitespace (s : jsstring) : Prop :=
  Forall (fun c => is_whitespace c = true) s.

(** [t] neither starts nor ends with whitespace. *)
Definition clean_ends (t : jsstring) : Prop :=
  (forall c t', t = c :: t' -> is_whitespace c = false)
  /\ (forall c t', t = t' ++ [c] -> is_whitespace c = false).

(** [t] is [r] without its surrounding whitespace. *)
Definition trimmed (r t : jsstring) : Prop :=
  exists pre post,
    r = pre ++ t ++ post /\ all_whitespace pre /\ all_whitespace post
    /\ clean_ends t.

Fixpoint join_space (items : list jsstring) : jsstring :=
  match items with
  | [] => []
  | item :: rest =>
      match rest with
      | [] => item
      | _ :: _ => item ++ SPACE :: join_space rest
      end
  end.

(** [items] are the space-delimited tokens of [t]. *)
Definition tokens (t : jsstring) (items : list jsstring) : Prop :=
  items <> [] /\ join_space items = t
  /\ Forall (fun item => ~ In SPACE item) items.

Definition has_period (item : jsstring) : Prop := In PERIOD item.

(** [c] is the first of [items] left after those with a period are
    discarded; [None] when none is left. *)
Definition first_remaining (items : list jsstring) (c : option jsstring)
    : Prop :=
  match c with
  | Some token =>
      exists before after,
        items = before ++ token :: after
        /\ Forall has_period before /\ ~ has_period token
  | None => Forall has_period items
  end.

Definition candidate (r : jsstring) (c : option jsstring) : Prop :=
  exists t items, trimmed r t /\ tokens t items /\ first_remaining items c.

(** "Returns that exact candidate only if it is string-equal to some entry
    in the list, else reports no move." *)
Definition validated (legal : list jsstring) (candidate : option jsstring)
    : option jsstring :=
  match candidate with
  | Some c => if decide (c ∈ legal) then Some c else None
  | None => None
  end.

(** "A terminal game position (checkmate, draw, or empty legal-move
    list)." *)
Definition terminal `{Engine : ChessEngine} (p : Position) : Prop :=
  game_over p = true \/ in_draw p = true \/ moves p = [].

(** What the page expects of the engine when it rejects a move: "no
    partial application". *)
Definition rejects_cleanly `{Engine : ChessEngine} : Prop :=
  forall p m, fst (move p m) = None -> snd (move p m) = p.

(** The ref, the timers and the requests in flight are the same in [st]
    and [st']. *)
Definition loop_untouched `{Engine : ChessEngine} (st st' : State) : Prop :=
  autoPlayRef st' = autoPlayRef st
  /\ timers st' = timers st
  /\ next_timer st' = next_timer st
  /\ effectTimeoutId st' = effectTimeoutId st
  /\ pending st' = pending st
  /\ next_request st' = next_request st.

(** "The user prompt followed by the serialization", with "the minimal
    default prefix in place of the empty serialization". *)
Definition prompt_text (prompt serialization : jsstring) : jsstring :=
  prompt ++ or_else serialization MINIMAL_PREFIX.

End Words.

(** ** Notions for the properties of the running page *)

(** [n] consecutive wake-ups of the auto-play loop, the first on timer
    [first]; each wake-up arms the next timer. *)
Fixpoint wakeups (first n : nat) : list Event :=
  match n with
  | O => []
  | S n' => TimerFires first :: wakeups (S first) n'
  end.

(** The events that only store a setting: a model slot or a prompt. *)
Definition setting_change (ev : Event) : Prop :=
  match ev with
  | ChangeModel _ | ChangeModel2 _
  | ChangeSystemPrompt _ | ChangeUserPrompt _ => True
  | _ => False
  end.

Section Notions.
Context `{Engine : ChessEngine}.

(** The state in which a call has left the page. *)
Definition outcome_state {A : Type} (r : Outcome A) : State :=
  match r with
  | Done _ st => st
  | Raised _ st => st
  | Suspended _ st => st
  end.

(** The request of a suspended call went to the API that the table
    [useChatCompletions] assigns to the model it names. *)
Definition api_matches {A : Type} (w : Waiting A) : Prop :=
  match w with
  | WaitChat request _ => useChatCompletions (chat_model request) = true
  | WaitCompl request _ => useChatCompletions (compl_model request) = false
  end.

(** The system message of a request; a completion request has none. *)
Definition system_sent {A : Type} (w : Waiting A) : option jsstring :=
  match w with
  | WaitChat request _ => Some (chat_system request)
  | WaitCompl _ _ => None
  end.

(** The user message or prompt of a request. *)
Definition user_sent {A : Type} (w : Waiting A) : jsstring :=
  match w with
  | WaitChat request _ => chat_user request
  | WaitCompl request _ => compl_prompt request
  end.

(** Lines 245-252 of the JSX: the [value] and the [disabled] attribute of
    the system-prompt text area. *)
Definition systemPromptBoxValue (env : Env) : jsstring :=
  if useChatCompletions (model env) then DEFAULT_SYSTEM_PROMPT
  else js "No system prompt for completion models.".

Definition systemPromptBoxDisabled (env : Env) : bool :=
  negb (useChatCompletions (model env)).

(** What the handlers of the component do and the two effects do not:
    they store no retry count above 3, arm timers only with closures whose
    count is at most 3, never write [isAutoPlayRef] and never clear a
    timer. *)
Definition tame_op {X : Type} (o : op X) : Prop :=
  match o with
  | SetRetryCount n => n <= 3
  | SetTimeoutAutoPlay closure => retryCount closure <= 3
  | WriteAutoPlayRef _ => False
  | ClearTimeout _ => False
  | _ => True
  end.

Inductive tame : forall A : Type, Prog A -> Prop :=
| tame_Ret (A : Type) (a : A) : tame A (Ret a)
| tame_Throw (A : Type) (msg : jsstring) : tame A (Throw msg)
| tame_Do (A X : Type) (o : op X) (k : X -> Prog A) :
    tame_op o -> (forall x, tame A (k x)) -> tame A (Do o k)
| tame_AwaitChat (A : Type) (r : ChatRequest) (k : option jsstring -> Prog A) :
    (forall x, tame A (k x)) -> tame A (AwaitChat r k)
| tame_AwaitCompl (A : Type) (r : ComplRequest) (k : jsstring -> Prog A) :
    (forall x, tame A (k x)) -> tame A (AwaitCompl r k)
| tame_Spawn (A : Type) (child : Prog unit) (k : Prog A) :
    tame unit child -> tame A k -> tame A (Spawn child k).

Definition tame_waiting {A : Type} (w : Waiting A) : Prop :=
  match w with
  | WaitChat _ k => forall x, tame A (k x)
  | WaitCompl _ k => forall x, tame A (k x)
  end.

(** What holds of the page at every moment, also in the middle of a
    handler: the counts are bounded, the identifiers handed out are below
    the next one, and what waits for a reply is tame. *)
Definition orderly (st : State) : Prop :=
  retryCount (cells st) <= 3
  /\ Forall (fun t => retryCount (snd t) <= 3) (timers st)
  /\ Forall (fun t => (fst t < next_timer st)%nat) (timers st)
  /\ Forall (fun e => tame_waiting (snd e)) (pending st)
  /\ Forall (fun e => (fst e < next_request st)%nat) (pending st).

(** What holds of the page between two events: it is orderly, the ref
    agrees with the flag, and the auto-play effect holds a timer exactly
    when the flag is on. *)
Definition settled (st : State) : Prop :=
  orderly st
  /\ autoPlayRef st = isAutoPlay (cells st)
  /\ match effectTimeoutId st with
     | Some id => isAutoPlay (cells st) = true /\ (id < next_timer st)%nat
     | None => isAutoPlay (cells st) = false
     end.

(** What a tame handler leaves alone, and what it may only raise. *)
Definition carried (st st' : State) : Prop :=
  autoPlayRef st' = autoPlayRef st
  /\ effectTimeoutId st' = effectTimeoutId st
  /\ (next_timer st <= next_timer st')%nat.

End Notions.

Arguments tame {Engine A} p.

(** * Properties *)

(** ** Strings *)

Lemma trimStart_app_whitespace pre s :
  Words.all_whitespace pre -> trimStart (pre ++ s) = trimStart s.
Proof.
  induction 1 as [|c pre Hc _ IH]; simpl; [reflexivity|].
  rewrite Hc. exact IH.
Qed.

Lemma trimStart_whitespace s :
  Words.all_whitespace s -> trimStart s = [].
Proof.
  intros Hs. rewrite <- (app_nil_r s). now rewrite trimStart_app_whitespace.
Qed.

Lemma trimStart_fixed s :
  (forall c s', s = c :: s' -> is_whitespace c = false) -> trimStart s = s.
Proof.
  destruct s as [|c s']; simpl; [reflexivity|].
  intros Hc. now rewrite (Hc c s' eq_refl).
Qed.

Lemma trimStart_decomp s :
  exists pre, s = pre ++ trimStart s /\ Words.all_whitespace pre.
Proof.
  induction s as [|c s' [pre [Heq Hpre]]]; simpl.
  - exists []. split; [reflexivity | constructor].
  - destruct (is_whitespace c) eqn:Hc.
    + exists (c :: pre). split; [simpl; congruence | now constructor].
    + exists []. split; [reflexivity | constructor].
Qed.

Lemma trimStart_head s c s' :
  trimStart s = c :: s' -> is_whitespace c = false.
Proof.
  induction s as [|d s0 IH]; simpl; [discriminate|].
  destruct (is_whitespace d) eqn:Hd; [exact IH|].
  intros [= <- _]. exact Hd.
Qed.

Lemma all_whitespace_rev s :
  Words.all_whitespace s -> Words.all_whitespace (rev s).
Proof.
  unfold Words.all_whitespace. rewrite !List.Forall_forall.
  intros Hs c Hc. apply Hs. now apply in_rev.
Qed.

Lemma trim_trimmed r : Words.trimmed r (trim r).
Proof.
  unfold trim, trimEnd.
  destruct (trimStart_decomp r) as [pre [Hr Hpre]].
  destruct (trimStart_decomp (rev (trimStart r))) as [q [Hq Hqws]].
  set (t := rev (trimStart (rev (trimStart r)))) in *.
  assert (Hu : trimStart r = t ++ rev q).
  { rewrite <- (rev_involutive (trimStart r)), Hq at 1.
    now rewrite rev_app_distr. }
  exists pre, (rev q). repeat split.
  - now rewrite <- Hu.
  - exact Hpre.
  - now apply all_whitespace_rev.
  - intros c t' Ht. rewrite Ht in Hu. simpl in Hu.
    exact (trimStart_head _ _ _ Hu).
  - intros c t' Ht.
    assert (Hrev : trimStart (rev (trimStart r)) = c :: rev t').
    { rewrite <- (rev_involutive (trimStart (rev (trimStart r)))).
      fold t. rewrite Ht, rev_app_distr. reflexivity. }
    exact (trimStart_head _ _ _ Hrev).
Qed.

Lemma trimmed_unique r t : Words.trimmed r t -> t = trim r.
Proof.
  intros (pre & post & -> & Hpre & Hpost & Hhead & Hlast).
  unfold trim. rewrite trimStart_app_whitespace by exact Hpre.
  destruct t as [|c t'].
  - simpl. rewrite (trimStart_whitespace post Hpost). reflexivity.
  - rewrite trimStart_fixed.
    2:{ simpl. intros d s' [= <- _]. exact (Hhead c t' eq_refl). }
    unfold trimEnd. rewrite rev_app_distr.
    rewrite trimStart_app_whitespace by now apply all_whitespace_rev.
    rewrite trimStart_fixed; [now rewrite rev_involutive|].
    intros d s' Hd. apply (Hlast d (rev s')).
    rewrite <- (rev_involutive (c :: t')), Hd. reflexivity.
Qed.

Lemma split_space_cons s : exists item items, split_space s = item :: items.
Proof.
  induction s as [|c s' (item & items & IH)]; simpl; [now eauto|].
  destruct (c =? SPACE); [now eauto|]. rewrite IH. now eauto.
Qed.

Lemma join_space_cons item item' rest :
  Words.join_space (item :: item' :: rest)
  = item ++ SPACE :: Words.join_space (item' :: rest).
Proof. reflexivity. Qed.

Lemma join_split_space s : Words.join_space (split_space s) = s.
Proof.
  induction s as [|c s' IH]; simpl; [reflexivity|].
  destruct (split_space_cons s') as (item & items & Hs).
  rewrite Hs in *.
  destruct (N.eqb_spec c SPACE) as [->|Hc].
  - now rewrite join_space_cons, IH.
  - destruct items as [|item' items].
    + simpl in *. now rewrite IH.
    + rewrite join_space_cons in *. rewrite <- IH. reflexivity.
Qed.

Lemma split_space_no_space s :
  Forall (fun item => ~ In SPACE item) (split_space s).
Proof.
  induction s as [|c s' IH]; simpl.
  - repeat constructor. intros [].
  - destruct (N.eqb_spec c SPACE) as [->|Hc].
    + constructor; [intros []|exact IH].
    + destruct (split_space_cons s') as (item & items & Hs).
      rewrite Hs in *. inversion IH as [|? ? Hitem Hitems]; subst.
      constructor; [|exact Hitems].
      intros [Heq|Hin]; [now apply Hc | now apply Hitem].
Qed.

Lemma split_space_token item :
  ~ In SPACE item -> split_space item = [item].
Proof.
  induction item as [|c item IH]; simpl; [reflexivity|].
  intros Hno. destruct (N.eqb_spec c SPACE) as [->|Hc].
  - exfalso. apply Hno. now left.
  - rewrite IH; [reflexivity|]. intros Hin. apply Hno. now right.
Qed.

Lemma split_space_app item rest :
  ~ In SPACE item ->
  split_space (item ++ SPACE :: rest) = item :: split_space rest.
Proof.
  induction item as [|c item IH]; simpl; [reflexivity|].
  intros Hno. destruct (N.eqb_spec c SPACE) as [->|Hc].
  - exfalso. apply Hno. now left.
  - rewrite IH; [reflexivity|]. intros Hin. apply Hno. now right.
Qed.

Lemma tokens_unique t items : Words.tokens t items -> items = split_space t.
Proof.
  intros (Hne & <- & Hno).
  induction Hno as [|item rest Hitem Hrest IH]; [now destruct Hne|].
  destruct rest as [|item' rest'].
  - simpl. now rewrite split_space_token.
  - rewrite join_space_cons, split_space_app by exact Hitem.
    f_equal. apply IH. discriminate.
Qed.

Lemma split_space_tokens t : Words.tokens t (split_space t).
Proof.
  split; [|split].
  - destruct (split_space_cons t) as (item & items & ->). discriminate.
  - apply join_split_space.
  - apply split_space_no_space.
Qed.

Lemma includes_period_spec item :
  includes_period item = true <-> Words.has_period item.
Proof.
  unfold includes_period, Words.has_period. rewrite existsb_exists. split.
  - intros (c & Hin & Hc). apply N.eqb_eq in Hc. now subst.
  - intros Hin. exists PERIOD. split; [exact Hin | apply N.eqb_refl].
Qed.

Lemma kept_spec item :
  negb (includes_period item) = true <-> ~ Words.has_period item.
Proof.
  rewrite <- includes_period_spec. destruct (includes_period item); simpl.
  - split; [discriminate | intros Hn; now destruct Hn].
  - split; [intros _; discriminate | reflexivity].
Qed.

Lemma discarded_spec item :
  negb (includes_period item) = false <-> Words.has_period item.
Proof.
  rewrite <- includes_period_spec. now destruct (includes_period item).
Qed.

Lemma head_filter_first_remaining items :
  Words.first_remaining items
    (head (List.filter (fun item => negb (includes_period item)) items)).
Proof.
  induction items as [|item items IH]; simpl; [constructor|].
  destruct (negb (includes_period item)) eqn:Hkeep; simpl.
  - exists [], items. repeat split; [constructor | now apply kept_spec].
  - apply discarded_spec in Hkeep.
    destruct (head (List.filter _ items)) as [token|]; simpl in *.
    + destruct IH as (before & after & -> & Hbefore & Htoken).
      exists (item :: before), after. repeat split; [now constructor | exact Htoken].
    + now constructor.
Qed.

Lemma first_remaining_unique items c :
  Words.first_remaining items c ->
  c = head (List.filter (fun item => negb (includes_period item)) items).
Proof.
  destruct c as [token|]; simpl.
  - intros (before & after & -> & Hbefore & Htoken).
    induction Hbefore as [|item before Hitem _ IH]; simpl.
    + apply kept_spec in Htoken. now rewrite Htoken.
    + apply discarded_spec in Hitem. now rewrite Hitem.
  - induction 1 as [|item items Hitem _ IH]; simpl; [reflexivity|].
    apply discarded_spec in Hitem. now rewrite Hitem.
Qed.

(** C2.  For every raw reply text, the candidate the code extracts is the
    one the specification describes: the surrounding whitespace is trimmed,
    the text is split on spaces, every token with a period is discarded and
    the first remaining token, if there is one, is the candidate.  The
    description determines the candidate, and the code computes it. *)
Theorem extract_choice_candidate (r : jsstring) (c : option jsstring) :
  extract_choice r = c <-> Words.candidate r c.
Proof.
  split.
  - intros <-. exists (trim r), (split_space (trim r)).
    split; [apply trim_trimmed|]. split; [apply split_space_tokens|].
    apply head_filter_first_remaining.
  - intros (t & items & Ht & Hitems & Hc).
    apply trimmed_unique in Ht. subst t.
    apply tokens_unique in Hitems. subst items.
    apply first_remaining_unique in Hc. now subst c.
Qed.

(** ** The move proposer *)

Lemma find_string_equal (legal : list jsstring) (c : jsstring) :
  List.find (fun move => bool_decide (move = c)) legal
  = if decide (c ∈ legal) then Some c else None.
Proof.
  induction legal as [|move legal IH]; simpl.
  - destruct (decide (c ∈ [])) as [Hin|_]; [|reflexivity].
    now apply not_elem_of_nil in Hin.
  - destruct (bool_decide_reflect (move = c)) as [->|Hne].
    + destruct (decide (c ∈ c :: legal)) as [_|Hout]; [reflexivity|].
      destruct Hout. now left.
    + rewrite IH.
      destruct (decide (c ∈ legal)) as [Hin|Hout];
        destruct (decide (c ∈ move :: legal)) as [Hin'|Hout'];
        try reflexivity.
      * destruct Hout'. now right.
      * apply elem_of_cons in Hin' as [->|Hin']; [now destruct Hne | now destruct Hout].
Qed.

(** Lines 50-54 against the specification's validation step.  The engine
    never lists the empty string as a move; were it listed, [if (!move)]
    would take it for no move. *)
Lemma choose_validated (legal : list jsstring) (r : jsstring) :
  [] ∉ legal ->
  choose legal r = Words.validated legal (extract_choice r).
Proof.
  intros Hlegal. unfold choose, find_choice, Words.validated.
  destruct (extract_choice r) as [c|]; [|reflexivity].
  rewrite find_string_equal.
  destruct (decide (c ∈ legal)) as [Hin|_]; [|reflexivity].
  destruct c as [|unit c]; [now destruct Hlegal | reflexivity].
Qed.

Lemma choose_listed_empty_string (legal : list jsstring) :
  [] ∈ legal -> choose legal [] = None /\ extract_choice [] = Some [].
Proof.
  intros Hin. split; [|reflexivity].
  unfold choose. change (extract_choice []) with (Some ([] : jsstring)).
  unfold find_choice. rewrite find_string_equal.
  case_decide; reflexivity.
Qed.

Section Proposer.
Context `{Engine : ChessEngine}.

Lemma terminal_test (p : Position) :
  Words.terminal p
  <-> (if game_over p then true else in_draw p)
      || bool_decide (length (moves p) = 0%nat) = true.
Proof.
  unfold Words.terminal.
  destruct (game_over p), (in_draw p); simpl; try tauto.
  rewrite bool_decide_eq_true, length_zero_iff_nil.
  split; [intros [?|[?|?]]; [discriminate..|assumption] | tauto].
Qed.

Lemma run_chatCompletionsQuery_terminal st model g system prompt :
  Words.terminal (position_of st g) ->
  run (chatCompletionsQuery model g system prompt) st = Done None st.
Proof.
  intros Hterm. apply terminal_test in Hterm.
  unfold chatCompletionsQuery. cbn.
  destruct (game_over (position_of st g)); cbn in *; [reflexivity|].
  now rewrite Hterm.
Qed.

Lemma run_completionsQuery_terminal st model g prompt :
  Words.terminal (position_of st g) ->
  run (completionsQuery model g prompt) st = Done None st.
Proof.
  intros Hterm. apply terminal_test in Hterm.
  unfold completionsQuery. cbn.
  destruct (game_over (position_of st g)); cbn in *; [reflexivity|].
  now rewrite Hterm.
Qed.

Lemma run_chatCompletionsQuery_live st model g system prompt :
  ~ Words.terminal (position_of st g) ->
  run (chatCompletionsQuery model g system prompt) st
  = Suspended
      (WaitChat {| chat_model := model;
                   chat_system := system;
                   chat_user := request_text prompt (pgn (position_of st g));
                   chat_sampling := sampling |}
                (chatCompletionsReply (moves (position_of st g)))) st.
Proof.
  intros Hlive. rewrite terminal_test in Hlive.
  apply not_true_is_false in Hlive.
  unfold chatCompletionsQuery. cbn.
  destruct (game_over (position_of st g)); cbn in *; [discriminate|].
  now rewrite Hlive.
Qed.

Lemma run_completionsQuery_live st model g prompt :
  ~ Words.terminal (position_of st g) ->
  run (completionsQuery model g prompt) st
  = Suspended
      (WaitCompl {| compl_prompt := request_text prompt (pgn (position_of st g));
                    compl_model := model;
                    compl_sampling := sampling |}
                 (completionsReply (moves (position_of st g)))) st.
Proof.
  intros Hlive. rewrite terminal_test in Hlive.
  apply not_true_is_false in Hlive.
  unfold completionsQuery. cbn.
  destruct (game_over (position_of st g)); cbn in *; [discriminate|].
  now rewrite Hlive.
Qed.

(** C3.  In a terminal position (game over, draw, or no legal move) both
    query functions return [null] at once: they run to their end without
    reaching the [await], so no request goes to the service, and they leave
    the state of the page as it was. *)
Theorem terminal_returns_null_without_request st model g system prompt :
  Words.terminal (position_of st g) ->
  run (chatCompletionsQuery model g system prompt) st = Done None st
  /\ run (completionsQuery model g prompt) st = Done None st.
Proof.
  intros Hterm. split.
  - now apply run_chatCompletionsQuery_terminal.
  - now apply run_completionsQuery_terminal.
Qed.

(** C1, as amended.  In a position that is not terminal both query
    functions issue their request and, whatever state the page is in when
    the reply arrives, return the candidate extracted from the reply text if
    it is string-equal to an entry of the legal-move list (as it was when
    the request was made) and [null] otherwise.  For the chat-style function
    this holds for every non-empty reply text.  The engine lists no empty
    string as a move. *)
Theorem live_reply_validated st model g system prompt :
  ~ Words.terminal (position_of st g) ->
  [] ∉ moves (position_of st g) ->
  (exists request k,
      run (chatCompletionsQuery model g system prompt) st
      = Suspended (WaitChat request k) st
      /\ forall r st', r <> [] ->
           run (k (Some r)) st'
           = Done (Words.validated (moves (position_of st g))
                                   (extract_choice r)) st')
  /\ (exists request k,
      run (completionsQuery model g prompt) st
      = Suspended (WaitCompl request k) st
      /\ forall r st',
           run (k r) st'
           = Done (Words.validated (moves (position_of st g))
                                   (extract_choice r)) st').
Proof.
  intros Hlive Hlegal. split.
  - eexists _, _. split; [now apply run_chatCompletionsQuery_live|].
    intros r st' Hr. cbn.
    destruct r as [|c r]; [now destruct Hr|]. cbn.
    now rewrite choose_validated.
  - eexists _, _. split; [now apply run_completionsQuery_live|].
    intros r st'. cbn. now rewrite choose_validated.
Qed.

(** What the two functions send: [prompt + game.pgn() || '1. '] parses as
    [(prompt + game.pgn()) || '1. ']. *)
Lemma request_text_cases (prompt serialization : jsstring) :
  request_text prompt serialization
  = match prompt ++ serialization with
    | [] => MINIMAL_PREFIX
    | _ :: _ => prompt ++ serialization
    end.
Proof.
  unfold request_text, or_else. now destruct (prompt ++ serialization).
Qed.

(** With a non-empty serialization the text is the prompt followed by the
    serialization, as the specification has it. *)
Lemma request_text_nonempty_pgn (prompt serialization : jsstring) :
  serialization <> [] ->
  request_text prompt serialization = prompt ++ serialization
  /\ Words.prompt_text prompt serialization = prompt ++ serialization.
Proof.
  intros Hs. unfold Words.prompt_text. rewrite request_text_cases.
  destruct serialization as [|c s]; [now destruct Hs|].
  split; [|reflexivity].
  now destruct prompt.
Qed.

(** C8, where the code departs from it.  When the serialization of the game
    is empty and the user prompt is not, both query functions send the user
    prompt alone: the fallback ["1. "] is not appended, since [||] applies
    to the whole concatenation, which is not empty. *)
Theorem empty_pgn_sends_prompt_alone st model g system prompt :
  ~ Words.terminal (position_of st g) ->
  pgn (position_of st g) = [] ->
  prompt <> [] ->
  text_sent (run (chatCompletionsQuery model g system prompt) st) = Some prompt
  /\ text_sent (run (completionsQuery model g prompt) st) = Some prompt
  /\ Words.prompt_text prompt (pgn (position_of st g))
     = prompt ++ MINIMAL_PREFIX
  /\ prompt <> prompt ++ MINIMAL_PREFIX.
Proof.
  intros Hlive Hpgn Hprompt.
  rewrite run_chatCompletionsQuery_live, run_completionsQuery_live by assumption.
  rewrite Hpgn. cbn [text_sent chat_user compl_prompt].
  rewrite request_text_cases, app_nil_r.
  destruct prompt as [|c prompt']; [now destruct Hprompt|].
  repeat split.
  intros Heq. apply (f_equal (@length N)) in Heq.
  rewrite length_app in Heq. cbn in Heq. lia.
Qed.

(** C9, as amended.  In a position that is not terminal, the chat-style
    function throws ["No choice found"] when the response content is [null]
    or the empty string; the completion-style function throws nothing on an
    empty text and returns [null].  Neither returns a move. *)
Theorem empty_response_no_move st model g system prompt :
  ~ Words.terminal (position_of st g) ->
  (exists request k,
      run (chatCompletionsQuery model g system prompt) st
      = Suspended (WaitChat request k) st
      /\ forall st',
           run (k None) st' = Raised MSG_NO_CHOICE st'
           /\ run (k (Some [])) st' = Raised MSG_NO_CHOICE st')
  /\ (exists request k,
      run (completionsQuery model g prompt) st
      = Suspended (WaitCompl request k) st
      /\ forall st', run (k []) st' = Done None st').
Proof.
  intros Hlive. split.
  - eexists _, _. split; [now apply run_chatCompletionsQuery_live|].
    intros st'. split; reflexivity.
  - eexists _, _. split; [now apply run_completionsQuery_live|].
    intros st'. cbn. unfold choose.
    change (extract_choice []) with (Some ([] : jsstring)).
    unfold find_choice. rewrite find_string_equal.
    case_decide; reflexivity.
Qed.

End Proposer.

(** ** The proposer on concrete input *)

#[local] Existing Instance Toy.restoring.

Example extract_e4 : extract_choice Toy.REPLY_E4 = Some (js "e4").
Proof. reflexivity. Qed.

Example extract_refusal : extract_choice Toy.REPLY_REFUSAL = Some (js "I").
Proof. reflexivity. Qed.

Example extract_after_double_space : extract_choice (js "1.  e4") = Some [].
Proof. reflexivity. Qed.

Example extract_only_move_numbers : extract_choice (js " 12. 13. ") = None.
Proof. reflexivity. Qed.

Lemma terminal_returns_null_witness :
  let st := Toy.page_after Toy.restoring [js "e4"; js "e5"; js "Nf3"; js "Nf6"] in
  Words.terminal (position_of st (game (cells st)))
  /\ run (chatCompletionsQuery gpt_4 (game (cells st))
            DEFAULT_SYSTEM_PROMPT DEFAULT_USER_PROMPT) st = Done None st
  /\ run (completionsQuery gpt_4 (game (cells st))
            DEFAULT_USER_PROMPT) st = Done None st.
Proof.
  intros st.
  assert (Hterm : Words.terminal (position_of st (game (cells st))))
    by (left; vm_compute; reflexivity).
  split; [exact Hterm|].
  exact (terminal_returns_null_without_request st gpt_4 (game (cells st))
           DEFAULT_SYSTEM_PROMPT DEFAULT_USER_PROMPT Hterm).
Defined.

Lemma toy_start_live :
  ~ Words.terminal (position_of (Toy.page_after Toy.restoring [])
                                (game (cells (Toy.page_after Toy.restoring [])))).
Proof. intros [H|[H|H]]; vm_compute in H; discriminate. Defined.

Lemma toy_start_moves :
  [] ∉ moves (position_of (Toy.page_after Toy.restoring [])
                          (game (cells (Toy.page_after Toy.restoring [])))).
Proof.
  intros Hin. vm_compute in Hin.
  repeat (apply elem_of_cons in Hin as [Hin|Hin]; [discriminate|]).
  now apply not_elem_of_nil in Hin.
Defined.

Lemma live_reply_validated_witness :
  let st := Toy.page_after Toy.restoring [] in
  let g := game (cells st) in
  ~ Words.terminal (position_of st g)
  /\ ([] ∉ moves (position_of st g))
  /\ (exists request k,
      run (chatCompletionsQuery gpt_4 g DEFAULT_SYSTEM_PROMPT
             DEFAULT_USER_PROMPT) st = Suspended (WaitChat request k) st
      /\ run (k (Some Toy.REPLY_E4)) st = Done (Some (js "e4")) st
      /\ run (k (Some Toy.REPLY_REFUSAL)) st = Done None st)
  /\ (exists request k,
      run (completionsQuery gpt_4 g DEFAULT_USER_PROMPT) st
      = Suspended (WaitCompl request k) st
      /\ run (k Toy.REPLY_E4) st = Done (Some (js "e4")) st
      /\ run (k Toy.REPLY_REFUSAL) st = Done None st).
Proof.
  intros st g.
  split; [exact toy_start_live|]. split; [exact toy_start_moves|].
  destruct (live_reply_validated st gpt_4 g DEFAULT_SYSTEM_PROMPT
              DEFAULT_USER_PROMPT toy_start_live toy_start_moves)
    as [(request & k & Hrun & Hk) (request' & k' & Hrun' & Hk')].
  split.
  - exists request, k. split; [exact Hrun|]. split.
    + exact (Hk Toy.REPLY_E4 st ltac:(discriminate)).
    + exact (Hk Toy.REPLY_REFUSAL st ltac:(discriminate)).
  - exists request', k'. split; [exact Hrun'|]. split.
    + exact (Hk' Toy.REPLY_E4 st).
    + exact (Hk' Toy.REPLY_REFUSAL st).
Defined.

(** The two scenarios of the specification at the initial position: the
    reply "1. e4 is strong" yields the move [e4], the refusal yields no
    move. *)
Example scenario_replies :
  let legal := moves (start (ChessEngine := Toy.restoring)) in
  choose legal Toy.REPLY_E4 = Some (js "e4")
  /\ choose legal Toy.REPLY_REFUSAL = None.
Proof. split; reflexivity. Qed.

(** C1 as stated fails for the chat-style function on the empty reply
    text.  At the initial position the request is issued; the candidate
    extracted from the empty text is the empty string, which is no legal
    move, so the claim has [null] returned; the function throws ["No choice
    found"] instead. *)
Lemma chat_empty_reply_throws :
  let st := Toy.page_after Toy.restoring [] in
  let g := game (cells st) in
  exists request k,
    run (chatCompletionsQuery gpt_4 g DEFAULT_SYSTEM_PROMPT
           DEFAULT_USER_PROMPT) st = Suspended (WaitChat request k) st
    /\ Words.validated (moves (position_of st g)) (extract_choice []) = None
    /\ run (k (Some [])) st = Raised MSG_NO_CHOICE st
    /\ run (k (Some [])) st <> Done None st.
Proof.
  intros st g. eexists _, _.
  split; [exact (run_chatCompletionsQuery_live st gpt_4 g _ _ toy_start_live)|].
  split; [reflexivity|]. split; [reflexivity|]. discriminate.
Qed.

Lemma empty_pgn_sends_prompt_alone_witness :
  let st := Toy.page_after Toy.restoring [] in
  let g := game (cells st) in
  (~ Words.terminal (position_of st g)
   /\ pgn (position_of st g) = []
   /\ DEFAULT_USER_PROMPT <> [])
  /\ text_sent (run (chatCompletionsQuery gpt_4 g DEFAULT_SYSTEM_PROMPT
                       DEFAULT_USER_PROMPT) st) = Some DEFAULT_USER_PROMPT
  /\ text_sent (run (completionsQuery gpt_4 g DEFAULT_USER_PROMPT) st)
     = Some DEFAULT_USER_PROMPT
  /\ Words.prompt_text DEFAULT_USER_PROMPT (pgn (position_of st g))
     = DEFAULT_USER_PROMPT ++ MINIMAL_PREFIX
  /\ DEFAULT_USER_PROMPT <> DEFAULT_USER_PROMPT ++ MINIMAL_PREFIX.
Proof.
  intros st g.
  assert (Hpgn : pgn (position_of st g) = []) by reflexivity.
  assert (Hprompt : DEFAULT_USER_PROMPT <> []) by discriminate.
  split; [repeat split; (exact toy_start_live || assumption)|].
  exact (empty_pgn_sends_prompt_alone st gpt_4 g DEFAULT_SYSTEM_PROMPT
           DEFAULT_USER_PROMPT toy_start_live Hpgn Hprompt).
Defined.

Lemma empty_response_no_move_witness :
  let st := Toy.page_after Toy.restoring [] in
  let g := game (cells st) in
  ~ Words.terminal (position_of st g)
  /\ (exists request k,
      run (chatCompletionsQuery gpt_4 g DEFAULT_SYSTEM_PROMPT
             DEFAULT_USER_PROMPT) st = Suspended (WaitChat request k) st
      /\ forall st',
           run (k None) st' = Raised MSG_NO_CHOICE st'
           /\ run (k (Some [])) st' = Raised MSG_NO_CHOICE st')
  /\ (exists request k,
      run (completionsQuery gpt_4 g DEFAULT_USER_PROMPT) st
      = Suspended (WaitCompl request k) st
      /\ forall st', run (k []) st' = Done None st').
Proof.
  intros st g. split; [exact toy_start_live|].
  exact (empty_response_no_move st gpt_4 g DEFAULT_SYSTEM_PROMPT
           DEFAULT_USER_PROMPT toy_start_live).
Defined.

(** C9 as stated fails for the completion-style function: at the initial
    position, an empty response text makes it return [null]; nothing is
    thrown. *)
Lemma completion_empty_reply_returns_null :
  let st := Toy.page_after Toy.restoring [] in
  let g := game (cells st) in
  exists request k,
    run (completionsQuery gpt_3_5_turbo_instruct g DEFAULT_USER_PROMPT) st
    = Suspended (WaitCompl request k) st
    /\ run (k []) st = Done None st
    /\ forall msg, run (k []) st <> Raised msg st.
Proof.
  intros st g. eexists _, _.
  split; [exact (run_completionsQuery_live st _ g _ toy_start_live)|].
  split; [reflexivity|]. discriminate.
Qed.

(** ** The game-state handlers *)

Section GameState.
Context `{Engine : ChessEngine}.

Lemma run_bind {A B : Type} (p : Prog A) (f : A -> Prog B) (st : State) :
  run (bind p f) st
  = match run p st with
    | Done a st' => run (f a) st'
    | Raised msg st' => Raised msg st'
    | Suspended w st' => Suspended (then_wait w f) st'
    end.
Proof.
  revert B f st.
  induction p as [A a|A msg|A X o k IH|A r k IH|A r k IH|A child IHchild k IHk];
    intros B f st; cbn; try reflexivity.
  - apply IH.
  - apply IHk.
Qed.

Lemma position_of_insert (st : State) (g g' : ChessInstance) (p : Position) :
  position_of (set_heap (<[inst g := p]> (heap st)) st) g'
  = if decide (inst g = inst g') then p else position_of st g'.
Proof.
  unfold position_of. cbn. rewrite lookup_insert. now case_decide.
Qed.

Lemma position_of_insert_same (st : State) (g g' : ChessInstance) :
  position_of (set_heap (<[inst g := position_of st g]> (heap st)) st) g'
  = position_of st g'.
Proof.
  rewrite position_of_insert. case_decide as Heq; [|reflexivity].
  unfold position_of. now rewrite Heq.
Qed.

(** [movePiece]: the engine is asked through a spread copy, which shares
    the instance; the copy is stored whatever the answer. *)
Lemma run_movePiece (env : Env) (m : MoveArg) (st : State) :
  run (movePiece env m) st
  = Done (fst (move (position_of st (game env)) m))
      (set_cells (with_game {| oid := next_oid st; inst := inst (game env) |})
         (set_heap (<[inst (game env) :=
                        snd (move (position_of st (game env)) m)]> (heap st))
            (set_next_oid (S (next_oid st)) st))).
Proof. reflexivity. Qed.

Lemma run_call {X : Type} (o : op X) (st : State) :
  run (call o) st = Done (fst (perform o st)) (snd (perform o st)).
Proof. reflexivity. Qed.

(** [setGameStateFromPGN]: the text is loaded through a spread copy, that
    is into the instance the page shows; the [game] cell is set only when
    the load succeeds. *)
Lemma run_setGameStateFromPGN (env : Env) (text : jsstring) (st : State) :
  let r := load_pgn (position_of st (game env)) text in
  let loaded :=
    set_heap (<[inst (game env) := snd r]> (heap st))
      (set_next_oid (S (next_oid st)) st) in
  run (setGameStateFromPGN env text) st
  = Done tt
      (if fst r
       then set_cells (with_game {| oid := S (next_oid st);
                                    inst := inst (game env) |})
              (set_next_oid (S (S (next_oid st)))
                 (set_cells (with_PGNInput []) loaded))
       else set_cells (with_PGNInput MSG_INVALID_PGN) loaded).
Proof.
  intros r loaded. unfold setGameStateFromPGN.
  rewrite run_bind, run_call. cbn [perform fst snd].
  rewrite run_bind, run_call. cbn [perform fst snd inst].
  change (load_pgn (position_of _ _) text) with r.
  destruct (fst r); reflexivity.
Qed.

(** C5.  Loading a notation string.  [load_pgn] is called on a spread
    copy, that is on the instance the caller's game shares, and the handler
    does nothing to that instance itself: after the call the instance is
    in the position in which the engine's [load_pgn] left it, whether the
    text was accepted or refused.  If it was accepted, the PGN input is
    cleared and the [game] cell holds a fresh copy of that instance.  If it
    was refused, the only change to the cells is the error text in the PGN
    input: the [game] cell holds the object it held, and the board shows
    what the engine made of the instance before it gave up.  The ref, the
    timers and the requests in flight are left alone. *)
Theorem setGameStateFromPGN_loads (env : Env) (st : State) (text : jsstring) :
  exists st',
    run (setGameStateFromPGN env text) st = Done tt st'
    /\ Words.loop_untouched st st'
    /\ position_of st' (game env)
       = snd (load_pgn (position_of st (game env)) text)
    /\ (forall g, inst g <> inst (game env) ->
                  position_of st' g = position_of st g)
    /\ (fst (load_pgn (position_of st (game env)) text) = true ->
        cells st' = with_game (game (cells st')) (with_PGNInput [] (cells st))
        /\ inst (game (cells st')) = inst (game env)
        /\ current_position st'
           = snd (load_pgn (position_of st (game env)) text))
    /\ (fst (load_pgn (position_of st (game env)) text) = false ->
        cells st' = with_PGNInput MSG_INVALID_PGN (cells st)
        /\ (inst (game (cells st)) = inst (game env) ->
            current_position st'
            = snd (load_pgn (position_of st (game env)) text))).
Proof.
  eexists. split; [apply run_setGameStateFromPGN|]. cbn zeta.
  destruct (load_pgn (position_of st (game env)) text) as [ok p'] eqn:Hload.
  cbn [fst snd].
  assert (Hshared : forall g,
             inst g = inst (game env) ->
             position_of
               (set_heap (<[inst (game env) := p']> (heap st))
                  (set_next_oid (S (next_oid st)) st)) g = p').
  { intros g Hg. unfold position_of. cbn. now rewrite Hg, lookup_insert_eq. }
  assert (Hother : forall g,
             inst g <> inst (game env) ->
             position_of
               (set_heap (<[inst (game env) := p']> (heap st))
                  (set_next_oid (S (next_oid st)) st)) g = position_of st g).
  { intros g Hg. unfold position_of. cbn.
    now rewrite lookup_insert_ne by (intros Heq; now apply Hg). }
  split; [now destruct ok|].
  split; [destruct ok; exact (Hshared (game env) eq_refl)|].
  split; [destruct ok; exact Hother|].
  split; intros ->.
  - split; [reflexivity|]. split; [reflexivity|].
    exact (Hshared {| oid := S (next_oid st); inst := inst (game env) |} eq_refl).
  - split; [reflexivity|]. intros Hsame. exact (Hshared (game (cells st)) Hsame).
Qed.

(** C6.  Applying a move, for an engine that rejects without partial
    application, from the handler of any render.  [movePiece] returns what
    the engine's [move] returns in the position of its caller's game, and
    touches nothing but that instance and the [game] cell, which afterwards
    holds a fresh copy of the caller's game, whatever the engine returned:
    the board then shows the caller's game.  If the engine returns [null],
    no chess instance has changed; called from the current render, the
    board is as it was, and [onDrop] returns [false] having done nothing
    more.  If the engine returns a move, the instance is in the position
    the engine moved to. *)
Theorem movePiece_applies (env : Env) (st : State) (m : MoveArg) :
  Words.rejects_cleanly ->
  exists st',
    run (movePiece env m) st
    = Done (fst (move (position_of st (game env)) m)) st'
    /\ Words.loop_untouched st st'
    /\ cells st' = with_game (game (cells st')) (cells st)
    /\ inst (game (cells st')) = inst (game env)
    /\ current_position st' = snd (move (position_of st (game env)) m)
    /\ (forall g, inst g <> inst (game env) ->
                  position_of st' g = position_of st g)
    /\ (fst (move (position_of st (game env)) m) = None ->
        (forall g, position_of st' g = position_of st g)
        /\ current_position st' = position_of st (game env)
        /\ (inst (game env) = inst (game (cells st)) ->
            current_position st' = current_position st)
        /\ forall sourceSquare targetSquare piece,
             m = ShortMove sourceSquare targetSquare (Some prom_q) ->
             run (onDrop env sourceSquare targetSquare piece) st
             = Done false st')
    /\ (forall realized,
          fst (move (position_of st (game env)) m) = Some realized ->
          position_of st' (game env)
          = snd (move (position_of st (game env)) m)).
Proof.
  intros Hclean. eexists. split; [apply run_movePiece|].
  destruct (move (position_of st (game env)) m) as [result p'] eqn:Hmove.
  cbn [fst snd].
  assert (Hshared : forall g,
             inst g = inst (game env) ->
             position_of
               (set_heap (<[inst (game env) := p']> (heap st))
                  (set_next_oid (S (next_oid st)) st)) g = p').
  { intros g Hg. unfold position_of. cbn. now rewrite Hg, lookup_insert_eq. }
  split; [now repeat split|].
  split; [reflexivity|]. split; [reflexivity|].
  split; [exact (Hshared {| oid := next_oid st; inst := inst (game env) |}
                   eq_refl)|].
  split.
  { intros g Hg.
    unfold position_of. cbn.
    now rewrite lookup_insert_ne by (intros Heq; now apply Hg). }
  split.
  - intros ->. specialize (Hclean (position_of st (game env)) m).
    rewrite Hmove in Hclean. cbn in Hclean.
    pose proof (Hclean eq_refl) as Hsame. subst p'. clear Hclean.
    assert (Hboard : current_position
                       (set_cells
                          (with_game {| oid := next_oid st;
                                        inst := inst (game env) |})
                          (set_heap
                             (<[inst (game env) := position_of st (game env)]>
                                (heap st))
                             (set_next_oid (S (next_oid st)) st)))
                     = position_of st (game env)).
    { exact (Hshared {| oid := next_oid st; inst := inst (game env) |}
               eq_refl). }
    split_and!.
    + intros g.
      change (position_of (set_cells _ ?s) g) with (position_of s g).
      exact (position_of_insert_same (set_next_oid _ st) (game env) g).
    + exact Hboard.
    + intros Hinst. rewrite Hboard. unfold current_position, position_of.
      now rewrite Hinst.
    + intros sourceSquare targetSquare piece ->.
      unfold onDrop. now rewrite run_bind, run_movePiece, Hmove.
  - intros realized _. exact (Hshared (game env) eq_refl).
Qed.

End GameState.

(** ** The game-state handlers on concrete input *)

Lemma toy_rejects_cleanly : Words.rejects_cleanly (Engine := Toy.restoring).
Proof.
  intros p m. cbn. unfold Toy.toy_move.
  destruct (existsb _ _); [discriminate | reflexivity].
Defined.

(** C5 at the failing input.  [load_pgn] of chess.js resets the instance
    and plays the moves of the text as it reads them; [Toy.replaying] fails
    in that way.  With [1. e4] on the board, loading [1. d4 d5 2. Ke2] is
    refused, the error text is shown, the [game] cell is not written, and
    the board is at [1. d4 d5]. *)
Lemma setGameStateFromPGN_loads_witness :
  let st := Toy.page_after Toy.replaying [js "e4"] in
  let text := js "1. d4 d5 2. Ke2" in
  fst (load_pgn (ChessEngine := Toy.replaying) (current_position st) text)
  = false
  /\ current_position st = [js "e4"]
  /\ exists st',
       run (setGameStateFromPGN (Engine := Toy.replaying) (cells st) text) st
       = Done tt st'
       /\ Words.loop_untouched st st'
       /\ cells st' = with_PGNInput MSG_INVALID_PGN (cells st)
       /\ current_position st' = [js "d4"; js "d5"]
       /\ current_position st' <> current_position st.
Proof.
  intros st text.
  assert (Hfail : fst (load_pgn (ChessEngine := Toy.replaying)
                         (current_position st) text) = false)
    by (vm_compute; reflexivity).
  split; [exact Hfail|]. split; [reflexivity|].
  destruct (setGameStateFromPGN_loads (Engine := Toy.replaying)
              (cells st) st text)
    as (st' & Hrun & Hloop & _ & _ & _ & Hrefused).
  destruct (Hrefused Hfail) as [Hcells Hboard].
  exists st'. split; [exact Hrun|]. split; [exact Hloop|].
  split; [exact Hcells|]. rewrite (Hboard eq_refl).
  split; [vm_compute; reflexivity | vm_compute; discriminate].
Defined.

(** A well-formed text replaces the game and clears the input; a text the
    engine cannot play at all leaves the error text and an empty board. *)
Example load_pgn_scenarios :
  let st := Toy.page_after Toy.replaying [js "e4"] in
  current_position (step ClickSetPGN (step (ChangePGNInput (js "1. d4 d5 2. Nf3")) st))
  = [js "d4"; js "d5"; js "Nf3"]
  /\ PGNInput (cells (step ClickSetPGN (step (ChangePGNInput (js "1. d4 d5 2. Nf3")) st))) = []
  /\ current_position (step ClickSetPGN (step (ChangePGNInput (js "not a game")) st))
     = []
  /\ PGNInput (cells (step ClickSetPGN (step (ChangePGNInput (js "not a game")) st)))
     = MSG_INVALID_PGN.
Proof. vm_compute. repeat split. Qed.

(** The copy the page loads into shares the instance on the board: a
    refused text leaves the board at the moves replayed so far, with the
    object in the [game] cell the one it was. *)
Example failed_load_with_replaying_engine :
  let st := Toy.page_after Toy.replaying [js "e4"] in
  let st' := step ClickSetPGN (step (ChangePGNInput (js "1. d4 d5 2. Ke2")) st) in
  PGNInput (cells st') = MSG_INVALID_PGN
  /\ game (cells st') = game (cells st)
  /\ current_position st = [js "e4"]
  /\ current_position st' = [js "d4"; js "d5"].
Proof. vm_compute. repeat split. Qed.

Lemma movePiece_applies_witness :
  let st := Toy.page_after Toy.restoring [js "e4"] in
  let m := ShortMove (fe, r7) (fe, r4) (Some prom_q) in
  Words.rejects_cleanly
  /\ fst (move (current_position st) m) = None
  /\ exists st',
    run (movePiece (cells st) m) st = Done None st'
    /\ Words.loop_untouched st st'
    /\ cells st' = with_game (game (cells st')) (cells st)
    /\ inst (game (cells st')) = inst (game (cells st))
    /\ (forall g, position_of st' g = position_of st g)
    /\ current_position st' = current_position st
    /\ run (onDrop (cells st) (fe, r7) (fe, r4) (js "bP")) st = Done false st'.
Proof.
  intros st m. split; [exact toy_rejects_cleanly|].
  assert (Hillegal : fst (move (current_position st) m) = None)
    by (vm_compute; reflexivity).
  split; [exact Hillegal|].
  destruct (movePiece_applies (cells st) st m toy_rejects_cleanly)
    as (st' & Hrun & Hloop & Hcells & Hinst & _ & _ & Hrejected & _).
  exists st'. change (position_of st (game (cells st)))
    with (current_position st) in Hrun, Hrejected.
  rewrite Hillegal in Hrun.
  split; [exact Hrun|]. split; [exact Hloop|]. split; [exact Hcells|].
  split; [exact Hinst|].
  destruct (Hrejected Hillegal) as (Hsame & _ & Hboard & Hdrop).
  split; [exact Hsame|]. split; [exact (Hboard eq_refl)|].
  exact (Hdrop (fe, r7) (fe, r4) (js "bP") eq_refl).
Defined.

(** C6 as stated fails for a handler resumed after an await.  After
    [1. e4] the force-move button is clicked; while the request is out the
    user plays [e5] and then resets the board.  The reply names [e5], which
    was legal when the request went out; the engine now rejects it and
    [movePiece] returns [null], but it has stored a copy of the old game:
    the board goes from the fresh game to [1. e4 e5]. *)
Lemma stale_rejected_move_replaces_board :
  let clicked := Toy.page_after Toy.restoring [js "e4"] in
  let closure := cells clicked in
  let st := steps [ClickForceMove; PieceDrop (fe, r7) (fe, r5) (js "bP");
                   ClickReset] clicked in
  fst (move (position_of st (game closure)) (SanMove (js "e5"))) = None
  /\ current_position st = []
  /\ (exists st',
        run (movePiece closure (SanMove (js "e5"))) st = Done None st'
        /\ current_position st' = [js "e4"; js "e5"]
        /\ current_position st' <> current_position st)
  /\ current_position (step (ComplResolves 0 (js "e5")) st)
     = [js "e4"; js "e5"].
Proof.
  intros clicked closure st.
  split; [vm_compute; reflexivity|]. split; [vm_compute; reflexivity|].
  split.
  - eexists. split; [reflexivity|].
    split; [vm_compute; reflexivity | vm_compute; discriminate].
  - vm_compute. reflexivity.
Qed.

(** An illegal drop and a legal one, after [1. e4]. *)
Example drop_scenarios :
  let st := Toy.page_after Toy.restoring [js "e4"] in
  fst (move (current_position st) (ShortMove (fe, r7) (fe, r4) (Some prom_q))) = None
  /\ current_position (step (PieceDrop (fe, r7) (fe, r4) (js "bP")) st) = [js "e4"]
  /\ fst (move (current_position st) (ShortMove (fe, r7) (fe, r5) (Some prom_q)))
     = Some (js "e5")
  /\ current_position (step (PieceDrop (fe, r7) (fe, r5) (js "bP")) st)
     = [js "e4"; js "e5"].
Proof. vm_compute. repeat split. Qed.

(** ** The proposer cycles and the auto-play loop *)

Section Cycles.
Context `{Engine : ChessEngine}.

Lemma run_autoPlay_idle (closure : Env) (st : State) :
  autoPlayRef st = false -> run (autoPlay closure) st = Done tt st.
Proof. intros Hoff. unfold autoPlay. cbn. now rewrite Hoff. Qed.

(** A wake-up that finds the ref cleared changes nothing. *)
Lemma dispatch_autoPlay_idle (closure : Env) (st : State) :
  autoPlayRef st = false -> dispatch (autoPlay closure) st = st.
Proof.
  intros Hoff. unfold dispatch. rewrite run_autoPlay_idle by exact Hoff.
  cbn. unfold commit. now rewrite bool_decide_true.
Qed.

Lemma run_autoPlay_live (closure : Env) (st : State) :
  autoPlayRef st = true ->
  run (autoPlay closure) st
  = let currentModel :=
      model_for closure (turn (position_of st (game closure))) in
    run (bind (if useChatCompletions currentModel
               then chatCompletionsQuery currentModel (game closure)
                      (systemPrompt closure) (userPrompt closure)
               else completionsQuery currentModel (game closure)
                      (userPrompt closure))
              (autoPlayAfter closure)) st.
Proof. intros Hon. unfold autoPlay. cbn. now rewrite Hon. Qed.

Lemma run_autoPlayAfter_retry (closure : Env) (move : option jsstring) (st : State) :
  move_or_null move = None ->
  retryCount closure < 3 ->
  run (autoPlayAfter closure move) st
  = Done tt
      (set_next_timer (S (next_timer st))
         (set_timers (timers st ++ [(next_timer st, closure)])
            (set_cells (with_retryCount (retryCount closure + 1)) st))).
Proof.
  intros Hnull Hlt. unfold autoPlayAfter. rewrite Hnull.
  apply N.ltb_lt in Hlt. rewrite Hlt. reflexivity.
Qed.

Lemma run_autoPlayAfter_stop (closure : Env) (move : option jsstring) (st : State) :
  move_or_null move = None ->
  3 <= retryCount closure ->
  run (autoPlayAfter closure move) st
  = Done tt
      (set_cells (with_lastMessage MSG_STOPPED)
         (set_cells (with_retryCount 0)
            (set_cells (with_isAutoPlay false) st))).
Proof.
  intros Hnull Hge. unfold autoPlayAfter. rewrite Hnull.
  apply N.ltb_ge in Hge. rewrite Hge. reflexivity.
Qed.

Lemma run_autoPlayAfter_move (closure : Env) (returned : option jsstring)
    (san : jsstring) (st : State) :
  move_or_null returned = Some san ->
  run (autoPlayAfter closure returned) st
  = Done tt
      (let applied := move (position_of st (game closure)) (SanMove san) in
       let moved :=
         set_cells (with_game {| oid := next_oid st; inst := inst (game closure) |})
           (set_heap (<[inst (game closure) := snd applied]> (heap st))
              (set_next_oid (S (next_oid st))
                 (set_cells (with_lastMessage (msg_suggests san))
                    (set_cells (with_retryCount 0) st)))) in
       set_next_timer (S (next_timer st))
         (set_timers (timers st ++ [(next_timer st, closure)]) moved)).
Proof.
  intros Hsome. unfold autoPlayAfter. rewrite Hsome. reflexivity.
Qed.

Lemma elem_of_drop_id {V : Type} (id : nat) (l : list (nat * V)) (t : nat * V) :
  t ∈ drop_id id l -> t ∈ l.
Proof.
  unfold drop_id. rewrite !list_elem_of_In, filter_In. tauto.
Qed.

(** The effects leave the cells alone, clear at most one timer when
    auto-play has been switched off, and copy the flag into the ref. *)
Lemma commit_switched_off (before st : State) :
  isAutoPlay (cells st) = false ->
  cells (commit before st) = cells st
  /\ (forall t, t ∈ timers (commit before st) -> t ∈ timers st)
  /\ (autoPlayRef st = false -> autoPlayRef (commit before st) = false)
  /\ (isAutoPlay (cells before) = true -> autoPlayRef (commit before st) = false).
Proof.
  intros Hoff. unfold commit. rewrite Hoff.
  destruct (isAutoPlay (cells before)).
  - rewrite bool_decide_false by discriminate.
    unfold effects, autoPlayEffect, refEffect. rewrite Hoff.
    destruct (effectTimeoutId st) as [id|]; cbn.
    + repeat split; try reflexivity. intros t. apply elem_of_drop_id.
    + repeat split; try reflexivity. tauto.
  - rewrite bool_decide_true by reflexivity.
    repeat split; try tauto. discriminate.
Qed.

(** C4, as amended.  A wake-up of [autoPlay] whose query returned no move
    ([autoPlayAfter] is what [autoPlay] does with the returned value) stops
    the loop exactly when the retry count it reads is not below 3.
    With a count below 3 it stores that count plus one and schedules itself
    again, changing nothing else.  With a count of 3 or more it disables
    auto-play, resets the counter to 0 and shows the terminal status
    message; no wake-up is scheduled, and the ref follows the flag. *)
Theorem no_move_wakeup (closure : Env) (returned : option jsstring) (st : State) :
  move_or_null returned = None ->
  (retryCount closure < 3 ->
   cells (dispatch (autoPlayAfter closure returned) st)
   = with_retryCount (retryCount closure + 1) (cells st)
   /\ timers (dispatch (autoPlayAfter closure returned) st)
      = timers st ++ [(next_timer st, closure)]
   /\ autoPlayRef (dispatch (autoPlayAfter closure returned) st)
      = autoPlayRef st)
  /\ (3 <= retryCount closure ->
      cells (dispatch (autoPlayAfter closure returned) st)
      = with_lastMessage MSG_STOPPED
          (with_retryCount 0 (with_isAutoPlay false (cells st)))
      /\ (forall t, t ∈ timers (dispatch (autoPlayAfter closure returned) st) ->
                    t ∈ timers st)
      /\ (autoPlayRef st = isAutoPlay (cells st) ->
          autoPlayRef (dispatch (autoPlayAfter closure returned) st) = false)).
Proof.
  intros Hnull. split; intros Hcount; unfold dispatch.
  - rewrite run_autoPlayAfter_retry by assumption. cbn [settle].
    unfold commit. rewrite bool_decide_true by reflexivity.
    repeat split.
  - rewrite run_autoPlayAfter_stop by assumption. cbn [settle].
    match goal with |- context [commit st ?s] =>
      destruct (commit_switched_off st s eq_refl) as (Hcells & Htimers & Href & Href')
    end.
    rewrite Hcells. split; [reflexivity|]. split; [exact Htimers|].
    intros Hsync. destruct (isAutoPlay (cells st)) eqn:Hflag.
    + now apply Href'.
    + now apply Href.
Qed.

(** C7, as amended.  The flag is read only at the start of a wake-up.
    When it has been switched off while the request was in flight and the
    query then returns a move, the move is still applied to the game, the
    status line reports it and another wake-up is scheduled; that wake-up,
    like any that finds the ref cleared, returns at once and changes
    nothing. *)
Theorem reply_after_switch_off (closure : Env) (returned : option jsstring)
    (san : jsstring) (st : State) :
  isAutoPlay (cells st) = false ->
  autoPlayRef st = false ->
  move_or_null returned = Some san ->
  position_of (dispatch (autoPlayAfter closure returned) st) (game closure)
  = snd (move (position_of st (game closure)) (SanMove san))
  /\ lastMessage (cells (dispatch (autoPlayAfter closure returned) st))
     = msg_suggests san
  /\ timers (dispatch (autoPlayAfter closure returned) st)
     = timers st ++ [(next_timer st, closure)]
  /\ autoPlayRef (dispatch (autoPlayAfter closure returned) st) = false
  /\ forall later, autoPlayRef later = false ->
       dispatch (autoPlay closure) later = later.
Proof.
  intros Hflag Href Hmove. unfold dispatch at 1 2 3 4.
  rewrite run_autoPlayAfter_move with (san := san) by assumption.
  cbn [settle]. unfold commit. cbn [cells set_next_timer set_timers set_cells
    set_heap set_next_oid isAutoPlay with_game with_lastMessage with_retryCount].
  rewrite bool_decide_true by reflexivity.
  split; [|split; [reflexivity|split; [reflexivity|split; [exact Href|]]]].
  - unfold position_of at 1. cbn. now rewrite lookup_insert_eq.
  - intros later. apply dispatch_autoPlay_idle.
Qed.

Lemma find_id_fresh {V : Type} (id : nat) (l : list (nat * V)) (v : V) :
  Forall (fun entry => fst entry <> id) l ->
  find_id id (l ++ [(id, v)]) = Some v /\ drop_id id (l ++ [(id, v)]) = l.
Proof.
  unfold find_id, drop_id.
  induction 1 as [|entry l Hentry _ [IHfind IHdrop]]; cbn.
  - rewrite Nat.eqb_refl. split; reflexivity.
  - apply Nat.eqb_neq in Hentry. rewrite Hentry. cbn. split; [exact IHfind|].
    now rewrite IHdrop.
Qed.

(** A wake-up in a live position, asking a completion model and answered
    with a text that holds no legal move, comes down to the tail of
    [autoPlay] run on "no move". *)
Lemma refused_wakeup (st : State) (id : nat) (closure : Env) (text : jsstring) :
  find_id id (timers st) = Some closure ->
  autoPlayRef st = true ->
  ~ Words.terminal (position_of st (game closure)) ->
  useChatCompletions
    (model_for closure (turn (position_of st (game closure)))) = false ->
  Forall (fun entry => fst entry <> next_request st) (pending st) ->
  choose (moves (position_of st (game closure))) text = None ->
  step (ComplResolves (next_request st) text) (step (TimerFires id) st)
  = dispatch (autoPlayAfter closure None)
      (set_next_request (S (next_request st))
         (set_timers (drop_id id (timers st)) st)).
Proof.
  intros Htimer Hon Hlive Hcompl Hfresh Hnone.
  unfold step at 2. rewrite Htimer. unfold dispatch at 1.
  rewrite run_autoPlay_live by exact Hon. cbn zeta.
  change (position_of (set_timers _ st)) with (position_of st).
  rewrite Hcompl, run_bind, run_completionsQuery_live by exact Hlive.
  cbn [settle then_wait]. unfold commit at 1.
  rewrite bool_decide_true by reflexivity.
  cbn [step pending set_next_request set_pending set_timers next_request].
  match goal with |- context [find_id ?i (?l ++ [(?i, ?w)])] =>
    destruct (find_id_fresh i l w Hfresh) as [-> ->]
  end.
  cbn [bind completionsReply].
  change (position_of (set_timers _ st)) with (position_of st).
  rewrite Hnone. reflexivity.
Qed.

(** A wake-up that is answered with no move, having read a count below 3,
    puts its own closure on the next timer: the next wake-up reads the same
    count again, whatever the counter cell holds by then. *)
Lemma refused_wakeup_repeats (st : State) (id : nat) (closure : Env)
    (text : jsstring) :
  find_id id (timers st) = Some closure ->
  autoPlayRef st = true ->
  ~ Words.terminal (position_of st (game closure)) ->
  useChatCompletions
    (model_for closure (turn (position_of st (game closure)))) = false ->
  Forall (fun entry => fst entry <> next_request st) (pending st) ->
  choose (moves (position_of st (game closure))) text = None ->
  retryCount closure < 3 ->
  step (ComplResolves (next_request st) text) (step (TimerFires id) st)
  = set_next_request (S (next_request st))
      (set_next_timer (S (next_timer st))
         (set_timers (drop_id id (timers st) ++ [(next_timer st, closure)])
            (set_cells (with_retryCount (retryCount closure + 1)) st))).
Proof.
  intros Htimer Hon Hlive Hcompl Hfresh Hnone Hcount.
  rewrite (refused_wakeup st id closure text) by assumption.
  unfold dispatch.
  rewrite run_autoPlayAfter_retry by (reflexivity || exact Hcount).
  cbn [settle]. unfold commit. rewrite bool_decide_true by reflexivity.
  reflexivity.
Qed.

(** The same wake-up with a count of 3 or more stops the loop. *)
Lemma refused_wakeup_stops (st : State) (id : nat) (closure : Env)
    (text : jsstring) :
  find_id id (timers st) = Some closure ->
  autoPlayRef st = true ->
  ~ Words.terminal (position_of st (game closure)) ->
  useChatCompletions
    (model_for closure (turn (position_of st (game closure)))) = false ->
  Forall (fun entry => fst entry <> next_request st) (pending st) ->
  choose (moves (position_of st (game closure))) text = None ->
  3 <= retryCount closure ->
  cells (step (ComplResolves (next_request st) text) (step (TimerFires id) st))
  = with_lastMessage MSG_STOPPED
      (with_retryCount 0 (with_isAutoPlay false (cells st)))
  /\ (forall t,
        t ∈ timers (step (ComplResolves (next_request st) text)
                      (step (TimerFires id) st)) ->
        t ∈ timers st)
  /\ (isAutoPlay (cells st) = true ->
      autoPlayRef (step (ComplResolves (next_request st) text)
                     (step (TimerFires id) st)) = false).
Proof.
  intros Htimer Hon Hlive Hcompl Hfresh Hnone Hcount.
  rewrite (refused_wakeup st id closure text) by assumption.
  unfold dispatch.
  rewrite run_autoPlayAfter_stop by (reflexivity || exact Hcount).
  cbn [settle].
  match goal with |- context [commit ?b ?s] =>
    destruct (commit_switched_off b s eq_refl) as (Hcells & Htimers & _ & Href)
  end.
  rewrite Hcells. split; [reflexivity|]. split.
  - intros t Ht. apply Htimers in Ht. cbn in Ht.
    now apply elem_of_drop_id in Ht.
  - exact Href.
Qed.

End Cycles.

(** ** The auto-play loop on concrete input *)

Lemma no_move_wakeup_witness :
  let st := set_autoPlayRef true
              (set_cells (with_isAutoPlay true)
                 (Toy.page_after Toy.restoring [])) in
  let waiting := with_retryCount 2 (cells st) in
  let stopping := with_retryCount 3 (cells st) in
  move_or_null None = None
  /\ (cells (dispatch (autoPlayAfter waiting None) st)
      = with_retryCount 3 (cells st)
      /\ timers (dispatch (autoPlayAfter waiting None) st)
         = timers st ++ [(next_timer st, waiting)]
      /\ autoPlayRef (dispatch (autoPlayAfter waiting None) st) = true)
  /\ (cells (dispatch (autoPlayAfter stopping None) st)
      = with_lastMessage MSG_STOPPED
          (with_retryCount 0 (with_isAutoPlay false (cells st)))
      /\ (forall t, t ∈ timers (dispatch (autoPlayAfter stopping None) st) ->
                    t ∈ timers st)
      /\ autoPlayRef (dispatch (autoPlayAfter stopping None) st) = false).
Proof.
  intros st waiting stopping. split; [reflexivity|]. split.
  - exact (proj1 (no_move_wakeup waiting None st eq_refl) eq_refl).
  - destruct (proj2 (no_move_wakeup stopping None st eq_refl))
      as (Hcells & Htimers & Href); [discriminate|].
    split; [exact Hcells|]. split; [exact Htimers|]. exact (Href eq_refl).
Defined.

(** A wake-up that reads the count 3 and gets no move stops the loop. *)
Example stop_at_count_three :
  let st := set_autoPlayRef true
              (set_cells (with_isAutoPlay true)
                 (Toy.page_after Toy.restoring [])) in
  let st' := dispatch (autoPlayAfter (with_retryCount 3 (cells st)) None) st in
  isAutoPlay (cells st') = false
  /\ autoPlayRef st' = false
  /\ retryCount (cells st') = 0
  /\ lastMessage (cells st') = MSG_STOPPED
  /\ timers st' = [].
Proof. vm_compute. repeat split. Qed.

(** C4 as stated fails.  After three consecutive "no move" outcomes,
    counted from 0, the loop has not halted: auto-play is still enabled,
    its next wake-up is scheduled and no terminal message is shown.  The
    counter reads 1, not 3: every wake-up is the closure of the render in
    which auto-play was switched on, and reads that render's count. *)
Lemma three_refusals_do_not_halt :
  let st := steps (Toy.refused 3) (Toy.page_after Toy.restoring []) in
  isAutoPlay (cells st) = true
  /\ autoPlayRef st = true
  /\ lastMessage (cells st) <> MSG_STOPPED
  /\ List.map fst (timers st) = [3%nat]
  /\ retryCount (cells st) = 1
  /\ List.map (fun t => retryCount (snd t)) (timers st) = [0].
Proof. vm_compute. repeat split. discriminate. Qed.

Lemma one_refusal (n : nat) :
  step (ComplResolves n Toy.REPLY_REFUSAL)
    (step (TimerFires n) (Toy.between_wakeups n))
  = Toy.between_wakeups (S n).
Proof.
  change n with (next_request (Toy.between_wakeups n)) at 1.
  rewrite (refused_wakeup_repeats _ n Toy.first_closure).
  - unfold Toy.between_wakeups, drop_id. cbn. rewrite Nat.eqb_refl.
    reflexivity.
  - cbn. now rewrite Nat.eqb_refl.
  - reflexivity.
  - intros [H|[H|H]]; vm_compute in H; discriminate.
  - reflexivity.
  - constructor.
  - vm_compute. reflexivity.
  - reflexivity.
Qed.

Lemma refusals_loop (n first : nat) :
  steps (Toy.refusals first n) (Toy.between_wakeups first)
  = Toy.between_wakeups (first + n).
Proof.
  revert first. induction n as [|n IH]; intros first.
  - now rewrite Nat.add_0_r.
  - cbn [Toy.refusals steps fold_left]. rewrite one_refusal.
    fold (steps (Toy.refusals (S first) n) (Toy.between_wakeups (S first))).
    rewrite IH. f_equal. lia.
Qed.

(** From the fresh page the loop never reaches its stopping branch: after
    any number of consecutive refusals auto-play is on, the counter reads 1
    (0 before the first) and the same closure waits on the timer. *)
Lemma refused_never_halts (n : nat) :
  steps (Toy.refused n) (Toy.page_after Toy.restoring [])
  = Toy.between_wakeups n.
Proof.
  unfold Toy.refused. cbn [steps fold_left].
  change (step ClickAutoPlay (Toy.page_after Toy.restoring []))
    with (Toy.between_wakeups 0).
  fold (steps (Toy.refusals 0 n) (Toy.between_wakeups 0)).
  apply refusals_loop.
Qed.

Lemma reply_after_switch_off_witness :
  let st := Toy.page_after Toy.restoring [] in
  let closure := cells st in
  let returned := Some (js "e4") in
  (isAutoPlay (cells st) = false
   /\ autoPlayRef st = false
   /\ move_or_null returned = Some (js "e4"))
  /\ position_of (dispatch (autoPlayAfter closure returned) st) (game closure)
     = snd (move (position_of st (game closure)) (SanMove (js "e4")))
  /\ lastMessage (cells (dispatch (autoPlayAfter closure returned) st))
     = msg_suggests (js "e4")
  /\ timers (dispatch (autoPlayAfter closure returned) st)
     = timers st ++ [(next_timer st, closure)]
  /\ autoPlayRef (dispatch (autoPlayAfter closure returned) st) = false
  /\ forall later, autoPlayRef later = false ->
       dispatch (autoPlay closure) later = later.
Proof.
  intros st closure returned. split; [repeat split|].
  exact (reply_after_switch_off closure returned (js "e4") st
           eq_refl eq_refl eq_refl).
Defined.

(** C7 as stated fails.  The flag is off when the request resolves, yet
    the move is applied to the game and a further wake-up is scheduled. *)
Lemma result_in_flight_not_discarded :
  let before := steps [ClickAutoPlay; TimerFires 0; ClickAutoPlay]
                  (Toy.page_after Toy.restoring []) in
  let st := steps Toy.switch_off_in_flight (Toy.page_after Toy.restoring []) in
  (isAutoPlay (cells before) = false
   /\ autoPlayRef before = false
   /\ List.map fst (pending before) = [0%nat]
   /\ timers before = []
   /\ current_position before = [])
  /\ isAutoPlay (cells st) = false
  /\ current_position st = [js "e4"]
  /\ List.map fst (timers st) = [1%nat].
Proof. vm_compute. repeat split. Qed.

(** ** The two model slots *)

Section Slots.
Context `{Engine : ChessEngine}.

Lemma pending_commit (before st : State) :
  pending (commit before st) = pending st.
Proof.
  unfold commit. case_bool_decide; [reflexivity|].
  unfold effects, autoPlayEffect, refEffect.
  destruct (effectTimeoutId st), (isAutoPlay (cells st)); reflexivity.
Qed.

Lemma models_asked_one (before after : State) (w : Waiting unit) :
  pending after = pending before ++ [(next_request before, w)] ->
  models_asked before after = [model_asked w].
Proof.
  intros Hafter. unfold models_asked. now rewrite Hafter, drop_app_length.
Qed.

(** A query function in a live position sends one request, naming the
    model it was called with. *)
Lemma query_asks (chat : bool) (asked : Model) (g : ChessInstance)
    (system prompt : jsstring) (f : option jsstring -> Prog unit) (st : State) :
  ~ Words.terminal (position_of st g) ->
  exists w,
    run (bind (if chat then chatCompletionsQuery asked g system prompt
               else completionsQuery asked g prompt) f) st
    = Suspended w st
    /\ model_asked w = asked.
Proof.
  intros Hlive. rewrite run_bind. destruct chat.
  - rewrite run_chatCompletionsQuery_live by exact Hlive. now eexists.
  - rewrite run_completionsQuery_live by exact Hlive. now eexists.
Qed.

Lemma makeMove_asks (env : Env) (st : State) :
  ~ Words.terminal (position_of st (game env)) ->
  exists w, run (makeMove env) st = Suspended w st
            /\ model_asked w = model env.
Proof.
  intros Hlive. unfold makeMove, makeChatCompletionsMove, makeCompletionsMove.
  destruct (useChatCompletions (model env)).
  - exact (query_asks true (model env) (game env) _ _ _ st Hlive).
  - exact (query_asks false (model env) (game env) [] _ _ st Hlive).
Qed.

(** C10.  The proposer cycles started by the force-move button and by a
    drop on the board name the first model slot in their request, whoever
    is to move, and their handlers do not depend on the second slot.  The
    second slot is read by [autoPlay], which names it when Black is to
    move; the other handlers do not depend on it either. *)
Theorem manual_cycles_ask_first_slot (st : State) :
  (forall m2, makeMove (with_model2 m2 (cells st)) = makeMove (cells st))
  /\ (forall m2 sourceSquare targetSquare piece,
        onDrop (with_model2 m2 (cells st)) sourceSquare targetSquare piece
        = onDrop (cells st) sourceSquare targetSquare piece)
  /\ (forall m2 text,
        resetBoard (with_model2 m2 (cells st)) = resetBoard (cells st)
        /\ setGameStateFromPGN (with_model2 m2 (cells st)) text
           = setGameStateFromPGN (cells st) text
        /\ toggleAutoPlay (with_model2 m2 (cells st))
           = toggleAutoPlay (cells st))
  /\ (~ Words.terminal (current_position st) ->
      models_asked st (step ClickForceMove st) = [model (cells st)])
  /\ (forall sourceSquare targetSquare piece realized,
        let dropped := ShortMove sourceSquare targetSquare (Some prom_q) in
        fst (move (current_position st) dropped) = Some realized ->
        ~ Words.terminal (snd (move (current_position st) dropped)) ->
        models_asked st (step (PieceDrop sourceSquare targetSquare piece) st)
        = [model (cells st)])
  /\ (forall id closure,
        find_id id (timers st) = Some closure ->
        autoPlayRef st = true ->
        ~ Words.terminal (position_of st (game closure)) ->
        models_asked st (step (TimerFires id) st)
        = [match turn (position_of st (game closure)) with
           | White => model closure
           | Black => model2 closure
           end]).
Proof.
  split; [reflexivity|]. split; [reflexivity|].
  split; [now repeat split|]. split; [|split].
  - intros Hlive. cbn [step]. unfold dispatch.
    destruct (makeMove_asks (cells st) st Hlive) as (w & -> & <-).
    apply models_asked_one. now rewrite pending_commit.
  - intros sourceSquare targetSquare piece realized dropped Hlegal Hlive.
    cbn [step]. unfold dispatch, onDrop.
    rewrite !run_bind, run_movePiece. fold dropped.
    unfold current_position in Hlegal, Hlive. rewrite Hlegal.
    rewrite run_bind, run_call. cbn [perform fst snd run].
    match goal with |- context [run (makeMove (cells st)) ?s] =>
      destruct (makeMove_asks (cells st) s) as (w & -> & <-)
    end.
    { unfold position_of. cbn. now rewrite lookup_insert_eq. }
    apply models_asked_one. now rewrite pending_commit.
  - intros id closure Htimer Hon Hlive. cbn [step]. rewrite Htimer.
    unfold dispatch. rewrite run_autoPlay_live by exact Hon. cbn zeta.
    change (position_of (set_timers _ st)) with (position_of st).
    match goal with |- context [run (bind (if ?c then _ else _) ?f) ?s] =>
      destruct (query_asks c
                  (model_for closure (turn (position_of st (game closure))))
                  (game closure) (systemPrompt closure) (userPrompt closure)
                  f s Hlive) as (w & -> & Hw)
    end.
    rewrite (models_asked_one st _ w); [now rewrite Hw|].
    now rewrite pending_commit.
Qed.

End Slots.

(** ** The model slots on concrete input *)

(** After [1. e4] it is Black's move; the first slot holds the chat model
    [gpt-4], the second the completion model. *)
Example slots_with_black_to_move :
  let st := set_cells (with_model gpt_4) (Toy.page_after Toy.restoring [js "e4"]) in
  turn (current_position st) = Black
  /\ model2 (cells st) = gpt_3_5_turbo_instruct
  /\ models_asked st (step ClickForceMove st) = [gpt_4]
  /\ models_asked (step (PieceDrop (fe, r7) (fe, r5) (js "bP")) st)
       (step ClickForceMove (step (PieceDrop (fe, r7) (fe, r5) (js "bP")) st))
     = [gpt_4]
  /\ models_asked st (step (PieceDrop (fe, r7) (fe, r5) (js "bP")) st) = [gpt_4]
  /\ models_asked (step ClickAutoPlay st)
       (step (TimerFires 0) (step ClickAutoPlay st))
     = [gpt_3_5_turbo_instruct].
Proof. vm_compute. repeat split. Qed.

Lemma manual_cycles_ask_first_slot_witness :
  let st := set_cells (with_model gpt_4)
              (Toy.page_after Toy.restoring [js "e4"]) in
  turn (current_position st) = Black
  /\ model2 (cells st) <> model (cells st)
  /\ models_asked st (step ClickForceMove st) = [model (cells st)]
  /\ models_asked st (step (PieceDrop (fe, r7) (fe, r5) (js "bP")) st)
     = [model (cells st)].
Proof.
  intros st. split; [reflexivity|]. split; [discriminate|].
  destruct (manual_cycles_ask_first_slot st)
    as (_ & _ & _ & Hforce & Hdrop & _).
  split.
  - apply Hforce. intros [H|[H|H]]; vm_compute in H; discriminate.
  - apply (Hdrop (fe, r7) (fe, r5) (js "bP") (js "e5")).
    + vm_compute. reflexivity.
    + intros [H|[H|H]]; vm_compute in H; discriminate.
Defined.

(** * Further properties *)

(** ** The candidate and the returned move *)

(** What [choose] returns, whatever the legal-move list holds: a move is
    returned exactly when it is the candidate of the reply text, is listed
    and is not the empty string. *)
Lemma choose_some_iff (legal : list jsstring) (r m : jsstring) :
  choose legal r = Some m
  <-> extract_choice r = Some m /\ m ∈ legal /\ m <> [].
Proof.
  unfold choose, find_choice.
  destruct (extract_choice r) as [c|]; cbn.
  - rewrite find_string_equal. case_decide as Hin; cbn.
    + destruct c as [|unit c]; cbn.
      * split; [discriminate | now intros ([= <-] & _ & Hne)].
      * split; [intros [= <-]; now repeat split | now intros ([= <-] & _)].
    + split; [discriminate | now intros ([= <-] & Hm & _)].
  - split; [discriminate | now intros ([=] & _)].
Qed.

(** The candidate is one of the pieces of the trimmed text. *)
Lemma extract_choice_piece (r c : jsstring) :
  extract_choice r = Some c ->
  In c (split_space (trim r)) /\ includes_period c = false.
Proof.
  unfold extract_choice. intros Hhead.
  apply head_Some_elem_of, list_elem_of_In, filter_In in Hhead.
  destruct Hhead as [Hin Hkeep].
  split; [exact Hin | now apply negb_true_iff].
Qed.

(** X1.  The candidate holds neither a space nor a period. *)
Theorem extract_choice_plain (r c : jsstring) :
  extract_choice r = Some c -> ~ In SPACE c /\ ~ In PERIOD c.
Proof.
  intros Hc. apply extract_choice_piece in Hc as [Hin Hperiod]. split.
  - pose proof (split_space_no_space (trim r)) as Hall.
    rewrite List.Forall_forall in Hall. now apply Hall.
  - intros Hdot. apply includes_period_spec in Hdot. congruence.
Qed.

(** X2.  Whitespace around the reply text does not change the candidate. *)
Theorem extract_choice_padding (pre r post : jsstring) :
  Words.all_whitespace pre -> Words.all_whitespace post ->
  trim (pre ++ r ++ post) = trim r
  /\ extract_choice (pre ++ r ++ post) = extract_choice r.
Proof.
  intros Hpre Hpost.
  assert (Htrim : trim (pre ++ r ++ post) = trim r).
  { symmetry. apply trimmed_unique.
    destruct (trim_trimmed r) as (p1 & p2 & Hr & Hp1 & Hp2 & Hends).
    exists (pre ++ p1), (p2 ++ post). repeat split.
    - rewrite Hr at 1. now rewrite <- !app_assoc.
    - now apply Forall_app.
    - now apply Forall_app.
    - apply Hends.
    - apply Hends. }
  split; [exact Htrim|]. unfold extract_choice. now rewrite Htrim.
Qed.

(** ** What the page keeps *)

Section Keeps.
Context `{Engine : ChessEngine}.

Lemma tame_bind {A B : Type} (p : Prog A) (f : A -> Prog B) :
  tame p -> (forall a, tame (f a)) -> tame (bind p f).
Proof.
  intros Hp. revert B f.
  induction Hp as [A a|A msg|A X o k Ho _ IH|A r k _ IH|A r k _ IH
                  |A child k Hchild _ _ IH]; intros B f Hf; cbn.
  - apply Hf.
  - constructor.
  - constructor; [exact Ho|]. intros x. now apply IH.
  - constructor. intros x. now apply IH.
  - constructor. intros x. now apply IH.
  - constructor; [exact Hchild|]. now apply IH.
Qed.

Lemma tame_call {X : Type} (o : op X) : tame_op o -> tame (call o).
Proof. intros Ho. constructor; [exact Ho|]. intros x. constructor. Qed.

Lemma tame_chatCompletionsQuery model g system prompt :
  tame (chatCompletionsQuery model g system prompt).
Proof.
  unfold chatCompletionsQuery.
  apply tame_bind; [now apply tame_call|]. intros possibleMoves.
  apply tame_bind; [now apply tame_call|]. intros over.
  apply tame_bind.
  { destruct over; [constructor | now apply tame_call]. }
  intros ended. destruct (_ || _); [constructor|].
  apply tame_bind; [now apply tame_call|]. intros pgn_text.
  constructor. intros [response_content|]; cbn; [|constructor].
  destruct (truthy response_content); constructor.
Qed.

Lemma tame_completionsQuery model g prompt :
  tame (completionsQuery model g prompt).
Proof.
  unfold completionsQuery.
  apply tame_bind; [now apply tame_call|]. intros possibleMoves.
  apply tame_bind; [now apply tame_call|]. intros over.
  apply tame_bind.
  { destruct over; [constructor | now apply tame_call]. }
  intros ended. destruct (_ || _); [constructor|].
  apply tame_bind; [now apply tame_call|]. intros pgn_text.
  constructor. intros response_content. constructor.
Qed.

Lemma tame_movePiece env m : tame (movePiece env m).
Proof.
  unfold movePiece.
  apply tame_bind; [now apply tame_call|]. intros gameCopy.
  apply tame_bind; [now apply tame_call|]. intros result.
  apply tame_bind; [now apply tame_call|]. intros _. constructor.
Qed.

Lemma tame_autoPlayAfter env returned :
  retryCount env <= 3 -> tame (autoPlayAfter env returned).
Proof.
  intros Hcount. unfold autoPlayAfter.
  destruct (move_or_null returned) as [san|].
  - apply tame_bind; [now apply tame_call|]. intros _.
    apply tame_bind; [now apply tame_call|]. intros _.
    apply tame_bind; [apply tame_movePiece|]. intros _.
    apply tame_bind; [now apply tame_call|]. intros _. constructor.
  - destruct (N.ltb_spec (retryCount env) 3) as [Hlt|Hge].
    + apply tame_bind; [apply tame_call; cbn; lia|]. intros _.
      apply tame_bind; [now apply tame_call|]. intros _. constructor.
    + apply tame_bind; [now apply tame_call|]. intros _.
      apply tame_bind; [now apply tame_call|]. intros _.
      now apply tame_call.
Qed.

Lemma tame_autoPlay env : retryCount env <= 3 -> tame (autoPlay env).
Proof.
  intros Hcount. unfold autoPlay.
  apply tame_bind; [now apply tame_call|]. intros live.
  destruct (negb live); [constructor|].
  apply tame_bind; [now apply tame_call|]. intros side. cbn zeta.
  apply tame_bind; [|intros returned; now apply tame_autoPlayAfter].
  destruct (useChatCompletions _);
    [apply tame_chatCompletionsQuery | apply tame_completionsQuery].
Qed.

Lemma tame_makeMove env : tame (makeMove env).
Proof.
  unfold makeMove, makeChatCompletionsMove, makeCompletionsMove.
  destruct (useChatCompletions (model env)).
  - apply tame_bind; [apply tame_chatCompletionsQuery|]. intros returned.
    destruct (move_or_null returned); [|now apply tame_call].
    apply tame_bind; [now apply tame_call|]. intros _.
    apply tame_bind; [apply tame_movePiece|]. intros _. constructor.
  - apply tame_bind; [apply tame_completionsQuery|]. intros returned.
    destruct (move_or_null returned); [|now apply tame_call].
    apply tame_bind; [now apply tame_call|]. intros _.
    apply tame_bind; [apply tame_movePiece|]. intros _. constructor.
Qed.

Lemma tame_onDrop env sourceSquare targetSquare piece :
  tame (onDrop env sourceSquare targetSquare piece).
Proof.
  unfold onDrop. apply tame_bind; [apply tame_movePiece|].
  intros [realized|]; [|constructor].
  apply tame_bind; [now apply tame_call|]. intros _.
  constructor; [apply tame_makeMove | constructor].
Qed.

Lemma tame_resetBoard env : tame (resetBoard env).
Proof.
  unfold resetBoard.
  apply tame_bind; [now apply tame_call|]. intros fresh.
  apply tame_bind; [now apply tame_call|]. intros _. now apply tame_call.
Qed.

Lemma tame_setGameStateFromPGN env text : tame (setGameStateFromPGN env text).
Proof.
  unfold setGameStateFromPGN.
  apply tame_bind; [now apply tame_call|]. intros gameCopy.
  apply tame_bind; [now apply tame_call|]. intros isLoaded.
  destruct (negb isLoaded); [now apply tame_call|].
  apply tame_bind; [now apply tame_call|]. intros _.
  apply tame_bind; [now apply tame_call|]. intros again. now apply tame_call.
Qed.


Lemma carried_refl st : carried st st.
Proof. unfold carried. split_and!; (reflexivity || lia). Qed.

Lemma carried_trans st1 st2 st3 :
  carried st1 st2 -> carried st2 st3 -> carried st1 st3.
Proof.
  intros (Hr & He & Hn) (Hr' & He' & Hn').
  unfold carried. split_and!; (congruence || lia).
Qed.

Lemma perform_orderly {X : Type} (o : op X) (st : State) :
  tame_op o -> orderly st ->
  orderly (snd (perform o st)) /\ carried st (snd (perform o st)).
Proof.
  intros Ho (Hcount & Hclosures & Htimers & Hwaiting & Hrequests).
  destruct o; cbn in Ho |- *; try contradiction.
  all: split; [|unfold carried; split_and!; cbn; (reflexivity || lia)].
  all: unfold orderly; split_and!; cbn; try assumption.
  - apply Forall_app. split; [assumption|]. now repeat constructor.
  - apply Forall_app. split.
    + eapply Forall_impl; [exact Htimers|]. cbn. intros t Ht. lia.
    + repeat constructor; cbn; lia.
Qed.

Lemma settle_orderly (r : Outcome unit) :
  orderly (outcome_state r) ->
  (forall w st', r = Suspended w st' -> tame_waiting w) ->
  orderly (settle r) /\ carried (outcome_state r) (settle r).
Proof.
  intros Hst Hw. destruct r as [a st|msg st|w st]; cbn in *;
    try (split; [assumption | apply carried_refl]).
  destruct Hst as (Hcount & Hclosures & Htimers & Hwaiting & Hrequests).
  split; [|unfold carried; split_and!; cbn; (reflexivity || lia)].
  unfold orderly; split_and!; cbn; try assumption.
  - apply Forall_app. split; [assumption|].
    repeat constructor; cbn. now apply (Hw w st).
  - apply Forall_app. split.
    + eapply Forall_impl; [exact Hrequests|]. cbn. intros e He. lia.
    + repeat constructor; cbn; lia.
Qed.

Lemma run_tame {A : Type} (p : Prog A) :
  tame p ->
  forall st, orderly st ->
    orderly (outcome_state (run p st))
    /\ carried st (outcome_state (run p st))
    /\ (forall w st', run p st = Suspended w st' -> tame_waiting w).
Proof.
  induction 1 as [A a|A msg|A X o k Ho Hk IH|A r k Hk _|A r k Hk _
                 |A child k Hchild IHchild Hk IHk]; intros st Hst; cbn.
  - split; [assumption|]. split; [apply carried_refl | discriminate].
  - split; [assumption|]. split; [apply carried_refl | discriminate].
  - destruct (perform_orderly o st Ho Hst) as [Hst' Hcarried].
    destruct (IH (fst (perform o st)) _ Hst') as (Hend & Hcarried' & Hw).
    split; [exact Hend|]. split; [|exact Hw].
    eapply carried_trans; eassumption.
  - split; [assumption|]. split; [apply carried_refl|].
    intros w st' [= <- _]. exact Hk.
  - split; [assumption|]. split; [apply carried_refl|].
    intros w st' [= <- _]. exact Hk.
  - destruct (IHchild st Hst) as (Hend & Hcarried & Hw).
    destruct (settle_orderly _ Hend Hw) as [Hsettled Hcarried'].
    destruct (IHk _ Hsettled) as (Hend' & Hcarried'' & Hw').
    split; [exact Hend'|]. split; [|exact Hw'].
    eapply carried_trans; [|exact Hcarried''].
    eapply carried_trans; eassumption.
Qed.

Lemma Forall_drop_id {V : Type} (P : nat * V -> Prop) (id : nat)
    (l : list (nat * V)) :
  Forall P l -> Forall P (drop_id id l).
Proof.
  unfold drop_id. rewrite !List.Forall_forall. intros Hl x Hx.
  apply filter_In in Hx. now apply Hl.
Qed.

Lemma drop_id_fresh {V : Type} (id : nat) (l : list (nat * V)) (v : V) :
  Forall (fun entry => (fst entry < id)%nat) l ->
  drop_id id (l ++ [(id, v)]) = l.
Proof.
  intros Hl. apply (find_id_fresh id l v).
  eapply Forall_impl; [exact Hl|]. cbn. intros e He. lia.
Qed.

(** The effects restore the agreement of ref, flag and effect timer. *)
Lemma commit_settled (before st : State) :
  settled before -> orderly st -> carried before st ->
  settled (commit before st).
Proof.
  intros (_ & Href & Heffect) Hst (Hr & He & Hn).
  destruct Hst as (Hcount & Hclosures & Htimers & Hwaiting & Hrequests).
  unfold commit. case_bool_decide as Hflag.
  - split; [unfold orderly; now split_and!|]. split; [congruence|].
    rewrite He. destruct (effectTimeoutId before) as [id|].
    + destruct Heffect as [Hon Hid]. split; [congruence | lia].
    + congruence.
  - assert (Hdrop : forall id,
        Forall (fun t => retryCount (snd t) <= 3) (drop_id id (timers st))
        /\ Forall (fun t => (fst t < next_timer st)%nat) (drop_id id (timers st)))
      by (intros id; split; now apply Forall_drop_id).
    assert (Hup : forall l : list (nat * Env),
        Forall (fun t => (fst t < next_timer st)%nat) l ->
        Forall (fun t => (fst t < S (next_timer st))%nat) l)
      by (intros l Hl; eapply Forall_impl; [exact Hl|]; cbn; intros; lia).
    unfold effects, autoPlayEffect, autoPlayEffectCleanup, refEffect.
    destruct (effectTimeoutId st) as [id|] eqn:Hid;
      destruct (isAutoPlay (cells st)) eqn:Hon; cbn.
    all: unfold settled, orderly; cbn; rewrite ?Hon; split_and!;
      try assumption; try reflexivity; try lia.
    all: try apply (Hdrop id).
    all: try (apply Forall_app; split;
              [try apply (Hdrop id); try apply Hup; try apply (Hdrop id);
               try assumption
              |repeat constructor; cbn; (assumption || lia)]).
Qed.

Lemma dispatch_settled (handler : Prog unit) (st : State) :
  tame handler -> settled st -> settled (dispatch handler st).
Proof.
  intros Hhandler Hst. unfold dispatch.
  destruct (run_tame handler Hhandler st (proj1 Hst)) as (Hend & Hcarried & Hw).
  destruct (settle_orderly _ Hend Hw) as [Hsettle Hcarried'].
  apply commit_settled; [exact Hst | exact Hsettle|].
  eapply carried_trans; eassumption.
Qed.


Lemma find_id_elem {V : Type} (id : nat) (l : list (nat * V)) (v : V) :
  find_id id l = Some v -> In (id, v) l.
Proof.
  unfold find_id. destruct (List.find _ l) as [[id' v']|] eqn:Hfind;
    [|discriminate].
  intros [= <-]. apply find_some in Hfind as [Hin Hid].
  apply Nat.eqb_eq in Hid. cbn in Hid. now subst.
Qed.

Lemma settled_drop_timer (id : nat) (st : State) :
  settled st -> settled (set_timers (drop_id id (timers st)) st).
Proof.
  intros ((Hcount & Hclosures & Htimers & Hwaiting & Hrequests) & Href & Heffect).
  unfold settled, orderly. cbn. split_and!; try assumption.
  all: now apply Forall_drop_id.
Qed.

Lemma settled_drop_pending (id : nat) (st : State) :
  settled st -> settled (set_pending (drop_id id (pending st)) st).
Proof.
  intros ((Hcount & Hclosures & Htimers & Hwaiting & Hrequests) & Href & Heffect).
  unfold settled, orderly. cbn. split_and!; try assumption.
  all: now apply Forall_drop_id.
Qed.

(** Editing a model slot, a prompt or the PGN input keeps the page
    settled. *)
Lemma settled_set_cells (f : Env -> Env) (st : State) :
  (forall env, retryCount (f env) = retryCount env
               /\ isAutoPlay (f env) = isAutoPlay env) ->
  settled st -> settled (set_cells f st).
Proof.
  intros Hf ((Hcount & Hclosures & Htimers & Hwaiting & Hrequests) & Href & Heffect).
  destruct (Hf (cells st)) as [Hc Ha].
  unfold settled, orderly. cbn. rewrite Hc, Ha. now split_and!.
Qed.

Lemma step_settled (ev : Event) (st : State) :
  settled st -> settled (step ev st).
Proof.
  intros Hst.
  assert (Hcount : retryCount (cells st) <= 3) by apply Hst.
  destruct ev; cbn [step].
  - apply dispatch_settled; [now apply tame_call | exact Hst].
  - apply dispatch_settled; [apply tame_resetBoard | exact Hst].
  - apply dispatch_settled; [apply tame_makeMove | exact Hst].
  - apply dispatch_settled; [apply tame_setGameStateFromPGN | exact Hst].
  - apply dispatch_settled; [|exact Hst].
    apply tame_bind; [apply tame_onDrop|]. intros accepted. constructor.
  - now apply settled_set_cells.
  - now apply settled_set_cells.
  - now apply settled_set_cells.
  - now apply settled_set_cells.
  - now apply settled_set_cells.
  - destruct (find_id id (timers st)) as [closure|] eqn:Hfind; [|exact Hst].
    apply dispatch_settled; [|now apply settled_drop_timer].
    apply tame_autoPlay. apply find_id_elem in Hfind.
    destruct Hst as ((_ & Hclosures & _) & _).
    rewrite List.Forall_forall in Hclosures. exact (Hclosures _ Hfind).
  - destruct (find_id id (pending st)) as [[request k|request k]|] eqn:Hfind;
      try exact Hst.
    apply dispatch_settled; [|now apply settled_drop_pending].
    apply find_id_elem in Hfind.
    destruct Hst as ((_ & _ & _ & Hwaiting & _) & _).
    rewrite List.Forall_forall in Hwaiting. exact (Hwaiting _ Hfind content).
  - destruct (find_id id (pending st)) as [[request k|request k]|] eqn:Hfind;
      try exact Hst.
    apply dispatch_settled; [|now apply settled_drop_pending].
    apply find_id_elem in Hfind.
    destruct Hst as ((_ & _ & _ & Hwaiting & _) & _).
    rewrite List.Forall_forall in Hwaiting. exact (Hwaiting _ Hfind text).
  - destruct (find_id id (pending st)) as [w|] eqn:Hfind; [|exact Hst].
    apply dispatch_settled; [constructor | now apply settled_drop_pending].
Qed.

Lemma settled_mounted : settled mounted.
Proof.
  unfold settled, orderly. cbn. split_and!; try constructor; try reflexivity.
  discriminate.
Qed.

Lemma steps_settled (evs : list Event) (st : State) :
  settled st -> settled (steps evs st).
Proof.
  revert st. induction evs as [|ev evs IH]; intros st Hst; [exact Hst|].
  cbn. apply IH. now apply step_settled.
Qed.

(** X3.  In every state the page can reach, the retry counter is at most 3,
    and so is the count of every [autoPlay] closure waiting on a timer. *)
Theorem retry_count_bounded (evs : list Event) :
  retryCount (cells (steps evs mounted)) <= 3
  /\ Forall (fun t => retryCount (snd t) <= 3) (timers (steps evs mounted)).
Proof.
  destruct (steps_settled evs mounted settled_mounted) as ((H1 & H2 & _) & _).
  now split.
Qed.

(** X4.  Between two events [isAutoPlayRef.current] equals [isAutoPlay]: the
    wake-ups of the loop, which read the ref, see the flag as it is. *)
Theorem ref_follows_flag (evs : list Event) :
  autoPlayRef (steps evs mounted) = isAutoPlay (cells (steps evs mounted)).
Proof. apply (steps_settled evs mounted settled_mounted). Qed.


Lemma settled_fresh_request (st : State) :
  settled st -> Forall (fun e => fst e <> next_request st) (pending st).
Proof.
  intros ((_ & _ & _ & _ & Hrequests) & _).
  eapply Forall_impl; [exact Hrequests|]. cbn. intros e He. lia.
Qed.

(** A request and its reply.  A handler that calls the completion query
    in a live position sends one request; when the reply arrives, the rest
    of the handler runs on what [choose] makes of the reply and of the
    legal moves read before the request. *)
Lemma resolve_compl (handler : Prog unit) (st : State) (asked : Model)
    (g : ChessInstance) (prompt : jsstring)
    (f : option jsstring -> Prog unit) (text : jsstring) :
  settled st ->
  ~ Words.terminal (position_of st g) ->
  run handler st = run (bind (completionsQuery asked g prompt) f) st ->
  step (ComplResolves (next_request st) text) (dispatch handler st)
  = dispatch (f (choose (moves (position_of st g)) text))
      (set_next_request (S (next_request st)) st).
Proof.
  intros Hst Hlive Hrun. unfold dispatch at 1.
  rewrite Hrun, run_bind, run_completionsQuery_live by exact Hlive.
  cbn [settle then_wait]. unfold commit at 1.
  rewrite bool_decide_true by reflexivity.
  cbn [step pending set_next_request set_pending next_request].
  match goal with |- context [find_id ?i (?l ++ [(?i, ?w)])] =>
    destruct (find_id_fresh i l w (settled_fresh_request st Hst)) as [-> ->]
  end.
  reflexivity.
Qed.

Lemma resolve_chat (handler : Prog unit) (st : State) (asked : Model)
    (g : ChessInstance) (system prompt : jsstring)
    (f : option jsstring -> Prog unit) (content : option jsstring) :
  settled st ->
  ~ Words.terminal (position_of st g) ->
  run handler st = run (bind (chatCompletionsQuery asked g system prompt) f) st ->
  step (ChatResolves (next_request st) content) (dispatch handler st)
  = dispatch (bind (chatCompletionsReply (moves (position_of st g)) content) f)
      (set_next_request (S (next_request st)) st).
Proof.
  intros Hst Hlive Hrun. unfold dispatch at 1.
  rewrite Hrun, run_bind, run_chatCompletionsQuery_live by exact Hlive.
  cbn [settle then_wait]. unfold commit at 1.
  rewrite bool_decide_true by reflexivity.
  cbn [step pending set_next_request set_pending next_request].
  match goal with |- context [find_id ?i (?l ++ [(?i, ?w)])] =>
    destruct (find_id_fresh i l w (settled_fresh_request st Hst)) as [-> ->]
  end.
  reflexivity.
Qed.

(** A request that is rejected ends the function that awaits it, and
    nothing else happens. *)
Lemma rejected_compl (handler : Prog unit) (st : State) (asked : Model)
    (g : ChessInstance) (prompt : jsstring)
    (f : option jsstring -> Prog unit) (reason : jsstring) :
  settled st ->
  ~ Words.terminal (position_of st g) ->
  run handler st = run (bind (completionsQuery asked g prompt) f) st ->
  step (RequestRejects (next_request st) reason) (dispatch handler st)
  = set_next_request (S (next_request st)) st.
Proof.
  intros Hst Hlive Hrun. unfold dispatch at 1.
  rewrite Hrun, run_bind, run_completionsQuery_live by exact Hlive.
  cbn [settle then_wait]. unfold commit at 1.
  rewrite bool_decide_true by reflexivity.
  cbn [step pending set_next_request set_pending next_request].
  match goal with |- context [find_id ?i (?l ++ [(?i, ?w)])] =>
    destruct (find_id_fresh i l w (settled_fresh_request st Hst)) as [-> ->]
  end.
  unfold dispatch. cbn [run settle]. unfold commit.
  now rewrite bool_decide_true by reflexivity.
Qed.

Lemma rejected_chat (handler : Prog unit) (st : State) (asked : Model)
    (g : ChessInstance) (system prompt : jsstring)
    (f : option jsstring -> Prog unit) (reason : jsstring) :
  settled st ->
  ~ Words.terminal (position_of st g) ->
  run handler st = run (bind (chatCompletionsQuery asked g system prompt) f) st ->
  step (RequestRejects (next_request st) reason) (dispatch handler st)
  = set_next_request (S (next_request st)) st.
Proof.
  intros Hst Hlive Hrun. unfold dispatch at 1.
  rewrite Hrun, run_bind, run_chatCompletionsQuery_live by exact Hlive.
  cbn [settle then_wait]. unfold commit at 1.
  rewrite bool_decide_true by reflexivity.
  cbn [step pending set_next_request set_pending next_request].
  match goal with |- context [find_id ?i (?l ++ [(?i, ?w)])] =>
    destruct (find_id_fresh i l w (settled_fresh_request st Hst)) as [-> ->]
  end.
  unfold dispatch. cbn [run settle]. unfold commit.
  now rewrite bool_decide_true by reflexivity.
Qed.

(** A handler whose query finds the game finished goes on at once, with
    no move and without a request. *)
Lemma dispatch_terminal (st : State) (chat : bool) (asked : Model)
    (g : ChessInstance) (system prompt : jsstring)
    (f : option jsstring -> Prog unit) :
  Words.terminal (position_of st g) ->
  run (bind (if chat then chatCompletionsQuery asked g system prompt
             else completionsQuery asked g prompt) f) st
  = run (f None) st.
Proof.
  intros Hterm. rewrite run_bind. destruct chat.
  - now rewrite run_chatCompletionsQuery_terminal.
  - now rewrite run_completionsQuery_terminal.
Qed.


Lemma run_makeMove (env : Env) (st : State) :
  run (makeMove env) st
  = run (bind (if useChatCompletions (model env)
               then chatCompletionsQuery (model env) (game env)
                      (systemPrompt env) (userPrompt env)
               else completionsQuery (model env) (game env) (userPrompt env))
              (makeMoveAfter env)) st.
Proof. unfold makeMove. now destruct (useChatCompletions (model env)). Qed.

Lemma dispatch_same_flag (handler : Prog unit) (st st' : State) :
  run handler st = Done tt st' ->
  isAutoPlay (cells st') = isAutoPlay (cells st) ->
  dispatch handler st = st'.
Proof.
  intros Hrun Hflag. unfold dispatch. rewrite Hrun. cbn [settle].
  unfold commit. now rewrite bool_decide_true.
Qed.

Lemma move_or_null_choose (legal : list jsstring) (text san : jsstring) :
  choose legal text = Some san -> move_or_null (Some san) = Some san.
Proof.
  intros Hsome. apply choose_some_iff in Hsome as (_ & _ & Hne).
  destruct san; [now destruct Hne | reflexivity].
Qed.

Lemma run_makeMoveAfter_move (env : Env) (returned : option jsstring)
    (san : jsstring) (st : State) :
  move_or_null returned = Some san ->
  run (makeMoveAfter env returned) st
  = Done tt
      (set_cells (with_game {| oid := next_oid st; inst := inst (game env) |})
         (set_heap (<[inst (game env) :=
                        snd (move (position_of st (game env)) (SanMove san))]>
                      (heap st))
            (set_next_oid (S (next_oid st))
               (set_cells (with_lastMessage (msg_suggests san)) st)))).
Proof. intros Hsome. unfold makeMoveAfter. now rewrite Hsome. Qed.

(** X5.  The force-move button is single-shot. If the game is finished, or if
    the reply holds no legal move, the only change is the status line: no
    retry, no timer, the retry counter and the game as they were. *)
Theorem force_move_single_shot (st : State) (text : jsstring) :
  settled st ->
  (Words.terminal (current_position st) ->
   step ClickForceMove st = set_cells (with_lastMessage MSG_TRY_AGAIN) st)
  /\ (~ Words.terminal (current_position st) ->
      choose (moves (current_position st)) text = None ->
      (useChatCompletions (model (cells st)) = false ->
       step (ComplResolves (next_request st) text) (step ClickForceMove st)
       = set_next_request (S (next_request st))
           (set_cells (with_lastMessage MSG_TRY_AGAIN) st))
      /\ (useChatCompletions (model (cells st)) = true -> text <> [] ->
          step (ChatResolves (next_request st) (Some text))
            (step ClickForceMove st)
          = set_next_request (S (next_request st))
              (set_cells (with_lastMessage MSG_TRY_AGAIN) st))).
Proof.
  intros Hst. unfold current_position. split.
  - intros Hterm. cbn [step]. apply dispatch_same_flag; [|reflexivity].
    rewrite run_makeMove, run_bind.
    destruct (useChatCompletions (model (cells st))).
    + now rewrite run_chatCompletionsQuery_terminal.
    + now rewrite run_completionsQuery_terminal.
  - intros Hlive Hnone. split; intros Hapi.
    + change (step ClickForceMove st) with (dispatch (makeMove (cells st)) st).
      rewrite (resolve_compl _ st (model (cells st)) (game (cells st))
                 (userPrompt (cells st)) (makeMoveAfter (cells st)) text Hst Hlive)
        by now rewrite run_makeMove, Hapi.
      rewrite Hnone. now apply dispatch_same_flag.
    + intros Htext.
      change (step ClickForceMove st) with (dispatch (makeMove (cells st)) st).
      rewrite (resolve_chat _ st (model (cells st)) (game (cells st))
                 (systemPrompt (cells st)) (userPrompt (cells st))
                 (makeMoveAfter (cells st)) (Some text) Hst Hlive)
        by now rewrite run_makeMove, Hapi.
      destruct text as [|c text]; [now destruct Htext|].
      cbn [chatCompletionsReply truthy bind]. rewrite Hnone.
      now apply dispatch_same_flag.
Qed.

(** X6.  A force-move that gets a move reports it and hands it to the engine;
    the retry counter, the auto-play flag and the timers are not touched. The
    move was legal when the request went out; the engine is asked again, in
    the position of the moment. *)
Theorem force_move_applies (st : State) (text san : jsstring) :
  settled st ->
  ~ Words.terminal (current_position st) ->
  useChatCompletions (model (cells st)) = false ->
  choose (moves (current_position st)) text = Some san ->
  san ∈ moves (current_position st)
  /\ current_position
       (step (ComplResolves (next_request st) text) (step ClickForceMove st))
     = snd (move (current_position st) (SanMove san))
  /\ cells (step (ComplResolves (next_request st) text) (step ClickForceMove st))
     = with_game
         (game (cells (step (ComplResolves (next_request st) text)
                         (step ClickForceMove st))))
         (with_lastMessage (msg_suggests san) (cells st))
  /\ timers (step (ComplResolves (next_request st) text) (step ClickForceMove st))
     = timers st
  /\ pending (step (ComplResolves (next_request st) text) (step ClickForceMove st))
     = pending st.
Proof.
  intros Hst Hlive Hapi Hsome. unfold current_position in *.
  split; [now apply choose_some_iff in Hsome|].
  change (step ClickForceMove st) with (dispatch (makeMove (cells st)) st).
  rewrite (resolve_compl _ st (model (cells st)) (game (cells st))
             (userPrompt (cells st)) (makeMoveAfter (cells st)) text Hst Hlive)
    by now rewrite run_makeMove, Hapi.
  rewrite Hsome.
  erewrite dispatch_same_flag;
    [|apply run_makeMoveAfter_move; exact (move_or_null_choose _ _ _ Hsome)
     |reflexivity].
  split_and!; try reflexivity.
  unfold position_of. cbn. now rewrite lookup_insert_eq.
Qed.


(** X7.  A move that was legal when the request went out may no longer be so
    when the reply arrives. The page then still reports it as the model's
    suggestion, and no game changes; in the auto-play loop the counter is
    reset and the next wake-up armed as for a move that was played. *)
Theorem stale_suggestion_reported (env : Env) (returned : option jsstring)
    (san : jsstring) (st : State) :
  Words.rejects_cleanly ->
  move_or_null returned = Some san ->
  fst (move (position_of st (game env)) (SanMove san)) = None ->
  ((forall g, position_of (dispatch (makeMoveAfter env returned) st) g
              = position_of st g)
   /\ lastMessage (cells (dispatch (makeMoveAfter env returned) st))
      = msg_suggests san)
  /\ ((forall g, position_of (dispatch (autoPlayAfter env returned) st) g
                 = position_of st g)
      /\ lastMessage (cells (dispatch (autoPlayAfter env returned) st))
         = msg_suggests san
      /\ retryCount (cells (dispatch (autoPlayAfter env returned) st)) = 0
      /\ timers (dispatch (autoPlayAfter env returned) st)
         = timers st ++ [(next_timer st, env)]).
Proof.
  intros Hclean Hsome Hrejected.
  pose proof (Hclean _ _ Hrejected) as Hsame.
  split.
  - erewrite dispatch_same_flag;
      [|exact (run_makeMoveAfter_move env returned san st Hsome)|reflexivity].
    split; [|reflexivity]. intros g. rewrite Hsame.
    change (position_of (set_cells _ ?s) g) with (position_of s g).
    exact (position_of_insert_same (set_next_oid _ (set_cells _ st)) (game env) g).
  - erewrite dispatch_same_flag;
      [|exact (run_autoPlayAfter_move env returned san st Hsome)|reflexivity].
    cbn zeta. split_and!; try reflexivity. intros g. rewrite Hsame.
    change (position_of (set_next_timer _ (set_timers _ (set_cells _ ?s))) g)
      with (position_of s g).
    exact (position_of_insert_same
             (set_next_oid _ (set_cells _ (set_cells _ st))) (game env) g).
Qed.

Lemma run_wakeup (closure : Env) (st : State) :
  autoPlayRef st = true ->
  run (autoPlay closure) st
  = run (bind (if useChatCompletions
                    (model_for closure (turn (position_of st (game closure))))
               then chatCompletionsQuery
                      (model_for closure (turn (position_of st (game closure))))
                      (game closure) (systemPrompt closure) (userPrompt closure)
               else completionsQuery
                      (model_for closure (turn (position_of st (game closure))))
                      (game closure) (userPrompt closure))
              (autoPlayAfter closure)) st.
Proof. intros Hon. now rewrite run_autoPlay_live. Qed.

(** X8.  The auto-play loop can end without a word. When the request of a
    wake-up is rejected, or a chat model answers with no content, the function
    throws inside its promise: no wake-up is armed, no message is shown, and
    the flag stays on. *)
Theorem wakeup_ends_silently (st : State) (id : nat) (closure : Env) :
  settled st ->
  find_id id (timers st) = Some closure ->
  isAutoPlay (cells st) = true ->
  ~ Words.terminal (position_of st (game closure)) ->
  (forall reason,
      step (RequestRejects (next_request st) reason) (step (TimerFires id) st)
      = set_next_request (S (next_request st))
          (set_timers (drop_id id (timers st)) st))
  /\ (useChatCompletions
        (model_for closure (turn (position_of st (game closure)))) = true ->
      forall content, content = None \/ content = Some [] ->
        step (ChatResolves (next_request st) content) (step (TimerFires id) st)
        = set_next_request (S (next_request st))
            (set_timers (drop_id id (timers st)) st)).
Proof.
  intros Hst Htimer Hflag Hlive.
  assert (Hon : autoPlayRef (set_timers (drop_id id (timers st)) st) = true).
  { cbn. destruct Hst as (_ & -> & _). exact Hflag. }
  pose proof (settled_drop_timer id st Hst) as Hst0.
  assert (Hstep : step (TimerFires id) st
                  = dispatch (autoPlay closure)
                      (set_timers (drop_id id (timers st)) st))
    by (cbn [step]; now rewrite Htimer).
  rewrite Hstep. split.
  - intros reason.
    destruct (useChatCompletions
                (model_for closure (turn (position_of st (game closure)))))
      eqn:Hapi.
    + eapply (rejected_chat _ (set_timers (drop_id id (timers st)) st) _ (game closure) _ _ (autoPlayAfter closure));
        [exact Hst0 | exact Hlive|].
      rewrite run_wakeup by exact Hon.
      change (position_of (set_timers _ st)) with (position_of st).
      now rewrite Hapi.
    + eapply (rejected_compl _ (set_timers (drop_id id (timers st)) st) _ (game closure) _ (autoPlayAfter closure));
        [exact Hst0 | exact Hlive|].
      rewrite run_wakeup by exact Hon.
      change (position_of (set_timers _ st)) with (position_of st).
      now rewrite Hapi.
  - intros Hapi content Hcontent.
    erewrite (resolve_chat _ (set_timers (drop_id id (timers st)) st) _
                (game closure) _ _ (autoPlayAfter closure) content Hst0 Hlive).
    2:{ rewrite run_wakeup by exact Hon.
        change (position_of (set_timers _ st)) with (position_of st).
        now rewrite Hapi. }
    destruct Hcontent as [-> | ->]; cbn [chatCompletionsReply truthy bind];
      unfold dispatch; cbn [run settle]; unfold commit;
      now rewrite bool_decide_true by reflexivity.
Qed.


Lemma elem_of_settled_timer (st : State) (id : nat) (closure : Env) :
  settled st -> In (id, closure) (timers st) -> (id < next_timer st)%nat.
Proof.
  intros ((_ & _ & Htimers & _) & _) Hin.
  rewrite List.Forall_forall in Htimers. exact (Htimers _ Hin).
Qed.

Lemma drop_id_absent {V : Type} (id : nat) (l : list (nat * V)) :
  Forall (fun entry => fst entry <> id) l -> drop_id id l = l.
Proof.
  unfold drop_id. induction 1 as [|entry l Hentry _ IH]; cbn; [reflexivity|].
  apply Nat.eqb_neq in Hentry. rewrite Hentry. cbn. now rewrite IH.
Qed.

(** X9.  Switching auto-play on arms the first wake-up with the closure of
    the new render and sets the ref; switching it off before that wake-up
    clears the timer again. On, then off, leaves the page as it was, but for
    the timer identifier that was used. *)
Theorem toggle_on_then_off (st : State) :
  settled st ->
  isAutoPlay (cells st) = false ->
  (cells (step ClickAutoPlay st) = with_isAutoPlay true (cells st)
   /\ autoPlayRef (step ClickAutoPlay st) = true
   /\ timers (step ClickAutoPlay st)
      = timers st ++ [(next_timer st, with_isAutoPlay true (cells st))]
   /\ effectTimeoutId (step ClickAutoPlay st) = Some (next_timer st))
  /\ step ClickAutoPlay (step ClickAutoPlay st)
     = set_next_timer (S (next_timer st))
         (set_cells (with_isAutoPlay false) st).
Proof.
  intros Hst Hoff.
  destruct Hst as ((_ & _ & Htimers & _) & Href & Heffect).
  rewrite Hoff in Href, Heffect.
  destruct (effectTimeoutId st) as [id|] eqn:Hid; [now destruct Heffect|].
  assert (Hon : step ClickAutoPlay st
                = set_effectTimeoutId (Some (next_timer st))
                    (set_autoPlayRef true
                       (set_next_timer (S (next_timer st))
                          (set_timers
                             (timers st
                              ++ [(next_timer st, with_isAutoPlay true (cells st))])
                             (set_cells (with_isAutoPlay true) st))))).
  { cbn [step]. unfold dispatch, toggleAutoPlay. rewrite Hoff. cbn.
    unfold commit. cbn. rewrite Hoff, Hid. cbn. reflexivity. }
  split; [rewrite Hon; now split_and!|].
  rewrite Hon. cbn [step]. unfold dispatch, toggleAutoPlay. cbn -[drop_id].
  unfold commit. cbn -[drop_id]. rewrite drop_id_fresh by exact Htimers.
  destruct st as [[] ? ? ? ? ? ? ? ? ?]. cbn in *. now subst.
Qed.

(** X10.  Switching auto-play off does not cancel a wake-up the loop has armed
    itself: only the timer of the effect is cleared. Switched on again before
    that wake-up, the page runs two loops: the old wake-up finds the ref set,
    and a new one is armed beside it. *)
Theorem toggle_off_then_on (st : State) (armed : nat) :
  settled st ->
  isAutoPlay (cells st) = true ->
  effectTimeoutId st = Some armed ->
  find_id armed (timers st) = None ->
  timers (step ClickAutoPlay st) = timers st
  /\ autoPlayRef (step ClickAutoPlay st) = false
  /\ timers (step ClickAutoPlay (step ClickAutoPlay st))
     = timers st ++ [(next_timer st, with_isAutoPlay true (cells st))]
  /\ autoPlayRef (step ClickAutoPlay (step ClickAutoPlay st)) = true.
Proof.
  intros Hst Hflag Hid Hfired.
  assert (Habsent : drop_id armed (timers st) = timers st).
  { apply drop_id_absent. apply List.Forall_forall. intros [id closure] Hin.
    cbn. intros ->. unfold find_id in Hfired.
    destruct (List.find _ (timers st)) eqn:Hfind; [discriminate|].
    apply (find_none _ _ Hfind) in Hin. cbn in Hin.
    now rewrite Nat.eqb_refl in Hin. }
  assert (Hoff : step ClickAutoPlay st
                 = set_effectTimeoutId None
                     (set_autoPlayRef false
                        (set_timers (drop_id armed (timers st))
                           (set_cells (with_isAutoPlay false) st)))).
  { cbn [step]. unfold dispatch, toggleAutoPlay. rewrite Hflag. cbn -[drop_id].
    unfold commit. cbn -[drop_id]. rewrite Hflag, Hid. cbn -[drop_id].
    reflexivity. }
  rewrite Hoff, Habsent. split; [reflexivity|]. split; [reflexivity|].
  cbn [step]. unfold dispatch, toggleAutoPlay. cbn.
  unfold commit. cbn. now split.
Qed.

(** X11.  Once the flag is off, a wake-up that was still armed uses up its
    timer and does nothing else. *)
Theorem wakeup_after_stop (st : State) (id : nat) (closure : Env) :
  settled st ->
  isAutoPlay (cells st) = false ->
  find_id id (timers st) = Some closure ->
  step (TimerFires id) st = set_timers (drop_id id (timers st)) st.
Proof.
  intros Hst Hoff Htimer. cbn [step]. rewrite Htimer.
  apply dispatch_autoPlay_idle. cbn.
  destruct Hst as (_ & -> & _). exact Hoff.
Qed.


Lemma classic_terminal (p : Position) :
  Words.terminal p \/ ~ Words.terminal p.
Proof.
  rewrite terminal_test.
  destruct ((if game_over p then true else in_draw p)
            || bool_decide (length (moves p) = 0%nat));
    [now left | right; discriminate].
Qed.

Lemma heap_commit (before st : State) :
  heap (commit before st) = heap st /\ cells (commit before st) = cells st.
Proof.
  unfold commit. case_bool_decide; [now split|].
  unfold effects, autoPlayEffect, refEffect.
  destruct (effectTimeoutId st), (isAutoPlay (cells st)); now split.
Qed.

(** X12.  A legal drop. The move is played on the shared instance, auto-play
    is switched off, flag and ref, and the drop is accepted. The proposer is
    then asked at once, through the first model slot, about the position after
    the user's move; if that move ended the game, no request goes out and the
    status line says that no move was found. *)
Theorem drop_then_propose (st : State) (sourceSquare targetSquare : Square)
    (piece : jsstring) (realized : Move) :
  settled st ->
  fst (move (current_position st)
         (ShortMove sourceSquare targetSquare (Some prom_q))) = Some realized ->
  (exists st', run (onDrop (cells st) sourceSquare targetSquare piece) st
               = Done true st')
  /\ current_position (step (PieceDrop sourceSquare targetSquare piece) st)
     = snd (move (current_position st)
              (ShortMove sourceSquare targetSquare (Some prom_q)))
  /\ isAutoPlay (cells (step (PieceDrop sourceSquare targetSquare piece) st))
     = false
  /\ autoPlayRef (step (PieceDrop sourceSquare targetSquare piece) st) = false
  /\ (~ Words.terminal
          (snd (move (current_position st)
                  (ShortMove sourceSquare targetSquare (Some prom_q)))) ->
      exists w,
        pending (step (PieceDrop sourceSquare targetSquare piece) st)
        = pending st ++ [(next_request st, w)]
        /\ model_asked w = model (cells st)
        /\ user_sent w
           = request_text (userPrompt (cells st))
               (pgn (snd (move (current_position st)
                            (ShortMove sourceSquare targetSquare (Some prom_q))))))
  /\ (Words.terminal
        (snd (move (current_position st)
                (ShortMove sourceSquare targetSquare (Some prom_q)))) ->
      pending (step (PieceDrop sourceSquare targetSquare piece) st) = pending st
      /\ lastMessage (cells (step (PieceDrop sourceSquare targetSquare piece) st))
         = MSG_TRY_AGAIN).
Proof.
  intros Hst Hlegal. unfold current_position in *.
  set (dropped := ShortMove sourceSquare targetSquare (Some prom_q)) in *.
  set (p' := snd (move (position_of st (game (cells st))) dropped)).
  set (moved :=
         set_cells (with_isAutoPlay false)
           (set_cells (with_game {| oid := next_oid st;
                                    inst := inst (game (cells st)) |})
              (set_heap (<[inst (game (cells st)) := p']> (heap st))
                 (set_next_oid (S (next_oid st)) st)))).
  assert (Hpos : position_of moved (game (cells st)) = p').
  { unfold position_of. cbn. now rewrite lookup_insert_eq. }
  assert (Hrun : run (onDrop (cells st) sourceSquare targetSquare piece) st
                 = Done true (settle (run (makeMove (cells st)) moved))).
  { unfold onDrop. rewrite run_bind, run_movePiece. fold dropped.
    rewrite Hlegal. reflexivity. }
  assert (Hstep : step (PieceDrop sourceSquare targetSquare piece) st
                  = commit st (settle (run (makeMove (cells st)) moved))).
  { cbn [step]. unfold dispatch. now rewrite run_bind, Hrun. }
  assert (Hoff : isAutoPlay (cells st) = true \/ isAutoPlay (cells st) = false)
    by (destruct (isAutoPlay (cells st)); tauto).
  destruct (classic_terminal p') as [Hterm|Hlive].
  - assert (Hend : settle (run (makeMove (cells st)) moved)
                   = set_cells (with_lastMessage MSG_TRY_AGAIN) moved).
    { rewrite run_makeMove, run_bind.
      destruct (useChatCompletions (model (cells st))).
      - rewrite run_chatCompletionsQuery_terminal by now rewrite Hpos.
        reflexivity.
      - rewrite run_completionsQuery_terminal by now rewrite Hpos.
        reflexivity. }
    rewrite Hstep, Hend.
    destruct (commit_switched_off st
                (set_cells (with_lastMessage MSG_TRY_AGAIN) moved) eq_refl)
      as (Hcells & _ & Href & Href').
    destruct (heap_commit st (set_cells (with_lastMessage MSG_TRY_AGAIN) moved))
      as [Hheap _].
    split; [eexists; rewrite Hrun, Hend; reflexivity|].
    split.
    { unfold position_of. rewrite Hheap, Hcells. cbn.
      now rewrite lookup_insert_eq. }
    split; [now rewrite Hcells|].
    split.
    { destruct Hoff as [Hon|Hoff]; [now apply Href'|].
      apply Href. cbn. destruct Hst as (_ & -> & _). exact Hoff. }
    split; [intros Hlive; now destruct Hlive|].
    intros _. rewrite pending_commit, Hcells. now split.
  - destruct (makeMove_asks (cells st) moved) as (w & Hask & Hmodel);
      [now rewrite Hpos|].
    assert (Huser : user_sent w
                    = request_text (userPrompt (cells st)) (pgn p')).
    { rewrite run_makeMove, run_bind in Hask.
      destruct (useChatCompletions (model (cells st))).
      - rewrite run_chatCompletionsQuery_live in Hask by now rewrite Hpos.
        injection Hask as <-. cbn. now rewrite Hpos.
      - rewrite run_completionsQuery_live in Hask by now rewrite Hpos.
        injection Hask as <-. cbn. now rewrite Hpos. }
    rewrite Hstep, Hask. cbn [settle].
    match goal with |- context [commit st ?s] =>
      destruct (commit_switched_off st s eq_refl) as (Hcells & _ & Href & Href');
      destruct (heap_commit st s) as [Hheap _];
      pose proof (pending_commit st s) as Hpending
    end.
    split; [eexists; rewrite Hrun, Hask; reflexivity|].
    split.
    { unfold position_of. rewrite Hheap, Hcells. cbn.
      now rewrite lookup_insert_eq. }
    split; [now rewrite Hcells|].
    split.
    { destruct Hoff as [Hon|Hoff]; [now apply Href'|].
      apply Href. cbn. destruct Hst as (_ & -> & _). exact Hoff. }
    split; [|intros Hterm; now destruct Hlive].
    intros _. exists w. now rewrite Hpending.
Qed.


(** X13.  A reset takes the board to a fresh game and clears the status line;
    it stops no loop and cancels no request. A function that was under way
    holds the game of its own render: when it gets a move after the reset, it
    plays the move in the old game and puts that game back on the board. *)
Theorem reset_then_move (st : State) (closure : Env)
    (returned : option jsstring) (san : jsstring) :
  inst (game closure) <> next_inst st ->
  move_or_null returned = Some san ->
  (current_position (step ClickReset st) = start
   /\ lastMessage (cells (step ClickReset st)) = []
   /\ isAutoPlay (cells (step ClickReset st)) = isAutoPlay (cells st)
   /\ Words.loop_untouched st (step ClickReset st))
  /\ current_position
       (dispatch (makeMoveAfter closure returned) (step ClickReset st))
     = snd (move (position_of st (game closure)) (SanMove san))
  /\ current_position
       (dispatch (autoPlayAfter closure returned) (step ClickReset st))
     = snd (move (position_of st (game closure)) (SanMove san)).
Proof.
  intros Hold Hsome.
  assert (Hreset : step ClickReset st
                   = set_cells (with_lastMessage [])
                       (set_cells (with_game {| oid := next_oid st;
                                                inst := next_inst st |})
                          (set_next_oid (S (next_oid st))
                             (set_next_inst (S (next_inst st))
                                (set_heap (<[next_inst st := start]> (heap st))
                                   st))))).
  { cbn [step]. now apply dispatch_same_flag. }
  assert (Hkept : position_of (step ClickReset st) (game closure)
                  = position_of st (game closure)).
  { rewrite Hreset. unfold position_of. cbn.
    now rewrite lookup_insert_ne by congruence. }
  split.
  - rewrite Hreset. split_and!; try reflexivity.
    + unfold current_position, position_of. cbn. now rewrite lookup_insert_eq.
    + unfold Words.loop_untouched. now split_and!.
  - split.
    + erewrite dispatch_same_flag;
        [|exact (run_makeMoveAfter_move closure returned san _ Hsome)
         |reflexivity].
      rewrite Hkept. unfold current_position, position_of. cbn.
      now rewrite lookup_insert_eq.
    + erewrite dispatch_same_flag;
        [|exact (run_autoPlayAfter_move closure returned san _ Hsome)
         |reflexivity].
      rewrite Hkept. unfold current_position, position_of. cbn.
      now rewrite lookup_insert_eq.
Qed.

(** X14.  The loop does not notice the end of the game. With the flag on and a
    count below 3 in its closure, a wake-up in a finished game asks no model,
    stores the count plus one and arms itself again, with the same closure; so
    it goes on, wake-up after wake-up, and never stops. *)
Theorem finished_game_polled (n : nat) (st : State) (id : nat) (closure : Env) :
  autoPlayRef st = true ->
  timers st = [(id, closure)] ->
  next_timer st = S id ->
  Words.terminal (position_of st (game closure)) ->
  retryCount closure < 3 ->
  steps (wakeups id (S n)) st
  = set_next_timer (S (S (id + n)))
      (set_timers [(S (id + n), closure)]
         (set_cells (with_retryCount (retryCount closure + 1)) st)).
Proof.
  intros Hon Htimers Hnext Hterm Hcount.
  assert (Hone : forall st0 id0,
      autoPlayRef st0 = true -> timers st0 = [(id0, closure)] ->
      next_timer st0 = S id0 ->
      Words.terminal (position_of st0 (game closure)) ->
      step (TimerFires id0) st0
      = set_next_timer (S (S id0))
          (set_timers [(S id0, closure)]
             (set_cells (with_retryCount (retryCount closure + 1)) st0))).
  { intros st0 id0 Hon0 Htimers0 Hnext0 Hterm0.
    assert (Hfind : find_id id0 [(id0, closure)] = Some closure)
      by (unfold find_id; cbn; now rewrite Nat.eqb_refl).
    assert (Hdrop : drop_id id0 [(id0, closure)] = [])
      by (unfold drop_id; cbn; now rewrite Nat.eqb_refl).
    cbn [step]. rewrite Htimers0, Hfind, Hdrop.
    apply dispatch_same_flag; [|reflexivity].
    rewrite run_wakeup by exact Hon0. rewrite run_bind.
    change (position_of (set_timers _ st0)) with (position_of st0).
    destruct (useChatCompletions _).
    - rewrite run_chatCompletionsQuery_terminal by exact Hterm0.
      rewrite run_autoPlayAfter_retry by (reflexivity || exact Hcount).
      cbn. now rewrite Hnext0.
    - rewrite run_completionsQuery_terminal by exact Hterm0.
      rewrite run_autoPlayAfter_retry by (reflexivity || exact Hcount).
      cbn. now rewrite Hnext0. }
  revert st id Hon Htimers Hnext Hterm.
  induction n as [|n IH]; intros st id Hon Htimers Hnext Hterm.
  - cbn [wakeups steps fold_left]. rewrite Nat.add_0_r. now apply Hone.
  - change (steps (wakeups id (S (S n))) st)
      with (steps (wakeups (S id) (S n)) (step (TimerFires id) st)).
    rewrite (Hone st id Hon Htimers Hnext Hterm).
    rewrite IH by (cbn; assumption || reflexivity).
    replace (S id + n)%nat with (id + S n)%nat by lia.
    reflexivity.
Qed.

(** X15.  The system-prompt box shows the default text whatever has been typed
    into it, while what was typed is what a chat model is sent. *)
Theorem system_prompt_sent_not_shown (st : State) (typed : jsstring) :
  settled st ->
  useChatCompletions (model (cells st)) = true ->
  ~ Words.terminal (current_position st) ->
  systemPromptBoxValue (cells (step (ChangeSystemPrompt typed) st))
  = DEFAULT_SYSTEM_PROMPT
  /\ exists w,
      pending (step ClickForceMove (step (ChangeSystemPrompt typed) st))
      = pending st ++ [(next_request st, w)]
      /\ system_sent w = Some typed.
Proof.
  intros Hst Hapi Hlive. split.
  - cbn. unfold systemPromptBoxValue. cbn. now rewrite Hapi.
  - cbn [step]. unfold dispatch. rewrite run_makeMove. cbn [model set_cells
      cells with_systemPrompt game systemPrompt userPrompt].
    rewrite Hapi, run_bind, run_chatCompletionsQuery_live by exact Hlive.
    cbn [settle then_wait]. rewrite pending_commit. cbn. eexists.
    split; reflexivity.
Qed.

(** X16.  The casts [model as ChatModel] and [model as CompletionModel] are
    sound: whenever the force-move handler or a wake-up sends a request, it
    goes to the API the table assigns to the model named in it. *)
Theorem requests_match_api (env : Env) (st : State) :
  (forall w st', run (makeMove env) st = Suspended w st' -> api_matches w)
  /\ (forall w st', run (autoPlay env) st = Suspended w st' -> api_matches w).
Proof.
  assert (Hquery : forall asked (f : option jsstring -> Prog unit) w st',
      (forall returned st0 w0 st1, run (f returned) st0 <> Suspended w0 st1) ->
      run (bind (if useChatCompletions asked
                 then chatCompletionsQuery asked (game env)
                        (systemPrompt env) (userPrompt env)
                 else completionsQuery asked (game env) (userPrompt env)) f) st
      = Suspended w st' -> api_matches w).
  { intros asked f w st' Hf. rewrite run_bind.
    destruct (classic_terminal (position_of st (game env))) as [Hterm|Hlive];
      destruct (useChatCompletions asked) eqn:Hapi.
    - rewrite run_chatCompletionsQuery_terminal by exact Hterm.
      intros Hrun. now apply Hf in Hrun.
    - rewrite run_completionsQuery_terminal by exact Hterm.
      intros Hrun. now apply Hf in Hrun.
    - rewrite run_chatCompletionsQuery_live by exact Hlive.
      intros [= <- _]. exact Hapi.
    - rewrite run_completionsQuery_live by exact Hlive.
      intros [= <- _]. exact Hapi. }
  split; intros w st'.
  - rewrite run_makeMove. apply Hquery.
    intros returned st0 w0 st1. unfold makeMoveAfter.
    destruct (move_or_null returned); discriminate.
  - destruct (autoPlayRef st) eqn:Hon.
    + rewrite run_wakeup by exact Hon. apply Hquery.
      intros returned st0 w0 st1. unfold autoPlayAfter.
      destruct (move_or_null returned); [discriminate|].
      destruct (retryCount env <? 3); discriminate.
    + rewrite run_autoPlay_idle by exact Hon. discriminate.
Qed.

(** X17.  Whatever the game, the reply and the state of the page when the reply
    arrives: what a query function returns is [null] or an entry of the
    legal-move list it read before the request. *)
Theorem queries_return_listed (st : State) (asked : Model) (g : ChessInstance)
    (system prompt : jsstring) (m : jsstring) :
  (forall st', run (chatCompletionsQuery asked g system prompt) st
               <> Done (Some m) st')
  /\ (forall st', run (completionsQuery asked g prompt) st <> Done (Some m) st')
  /\ (forall request k st0 content st1 st2,
        run (chatCompletionsQuery asked g system prompt) st
        = Suspended (WaitChat request k) st0 ->
        run (k content) st1 = Done (Some m) st2 ->
        m ∈ moves (position_of st g))
  /\ (forall request k st0 text st1 st2,
        run (completionsQuery asked g prompt) st
        = Suspended (WaitCompl request k) st0 ->
        run (k text) st1 = Done (Some m) st2 ->
        m ∈ moves (position_of st g)).
Proof.
  destruct (classic_terminal (position_of st g)) as [Hterm|Hlive].
  - rewrite run_chatCompletionsQuery_terminal, run_completionsQuery_terminal
      by exact Hterm.
    split_and!; try discriminate.
  - rewrite run_chatCompletionsQuery_live, run_completionsQuery_live
      by exact Hlive.
    split_and!; try discriminate.
    + intros request k st0 content st1 st2 [= _ <- _].
      destruct content as [[|c text]|]; cbn; try discriminate.
      intros [= Hsome _]. now apply choose_some_iff in Hsome.
    + intros request k st0 text st1 st2 [= _ <- _]. cbn.
      intros [= Hsome _]. now apply choose_some_iff in Hsome.
Qed.

End Keeps.

(** X18.  Two spaces after a move number leave an empty piece between them; it
    holds no period, so it is the candidate, and no move is found whatever
    follows. *)
Theorem empty_piece_blocks (number rest : jsstring) (legal : list jsstring) :
  Words.has_period number ->
  ~ In SPACE number ->
  Words.clean_ends (number ++ SPACE :: SPACE :: rest) ->
  extract_choice (number ++ SPACE :: SPACE :: rest) = Some []
  /\ choose legal (number ++ SPACE :: SPACE :: rest) = None.
Proof.
  intros Hperiod Hspace Hends.
  assert (Hextract : extract_choice (number ++ SPACE :: SPACE :: rest) = Some []).
  { unfold extract_choice.
    rewrite <- (trimmed_unique (number ++ SPACE :: SPACE :: rest)
                  (number ++ SPACE :: SPACE :: rest)).
    2:{ exists [], []. rewrite app_nil_r. cbn.
        split; [reflexivity|]. split; [constructor|]. now split; [constructor|]. }
    rewrite split_space_app by exact Hspace. cbn.
    apply includes_period_spec in Hperiod. now rewrite Hperiod. }
  split; [exact Hextract|].
  destruct (choose legal _) as [m|] eqn:Hchoose; [|reflexivity].
  apply choose_some_iff in Hchoose as (Hm & _ & Hne).
  rewrite Hextract in Hm. injection Hm as <-. now destruct Hne.
Qed.

(** ** The loop and its closure *)

Section Plays.
Context `{Engine : ChessEngine}.

(** X19.  A wake-up that gets a move. The move is played in the game of the
    closure, which goes on the board; the counter is reset, the status line
    reports the move and the same closure is armed again. *)
Theorem wakeup_plays_move (st : State) (id : nat) (closure : Env)
    (text san : jsstring) :
  settled st ->
  isAutoPlay (cells st) = true ->
  find_id id (timers st) = Some closure ->
  ~ Words.terminal (position_of st (game closure)) ->
  useChatCompletions
    (model_for closure (turn (position_of st (game closure)))) = false ->
  choose (moves (position_of st (game closure))) text = Some san ->
  current_position
    (step (ComplResolves (next_request st) text) (step (TimerFires id) st))
  = snd (move (position_of st (game closure)) (SanMove san))
  /\ cells (step (ComplResolves (next_request st) text) (step (TimerFires id) st))
     = with_game
         (game (cells (step (ComplResolves (next_request st) text)
                         (step (TimerFires id) st))))
         (with_lastMessage (msg_suggests san) (with_retryCount 0 (cells st)))
  /\ inst (game (cells (step (ComplResolves (next_request st) text)
                          (step (TimerFires id) st))))
     = inst (game closure)
  /\ timers (step (ComplResolves (next_request st) text) (step (TimerFires id) st))
     = drop_id id (timers st) ++ [(next_timer st, closure)]
  /\ pending (step (ComplResolves (next_request st) text) (step (TimerFires id) st))
     = pending st.
Proof.
  intros Hst Hflag Htimer Hlive Hapi Hsome.
  assert (Hon : autoPlayRef (set_timers (drop_id id (timers st)) st) = true).
  { cbn. destruct Hst as (_ & -> & _). exact Hflag. }
  pose proof (settled_drop_timer id st Hst) as Hst0.
  assert (Hstep : step (TimerFires id) st
                  = dispatch (autoPlay closure)
                      (set_timers (drop_id id (timers st)) st))
    by (cbn [step]; now rewrite Htimer).
  rewrite Hstep.
  erewrite (resolve_compl _ (set_timers (drop_id id (timers st)) st) _
              (game closure) _ (autoPlayAfter closure) text Hst0 Hlive).
  2:{ rewrite run_wakeup by exact Hon.
      change (position_of (set_timers _ st)) with (position_of st).
      now rewrite Hapi. }
  change (position_of (set_timers _ st)) with (position_of st).
  rewrite Hsome.
  erewrite dispatch_same_flag;
    [|apply run_autoPlayAfter_move; exact (move_or_null_choose _ _ _ Hsome)
     |reflexivity].
  cbn zeta. split_and!; try reflexivity.
  unfold current_position, position_of. cbn. now rewrite lookup_insert_eq.
Qed.

Lemma settled_set_heap (h : gmap nat Position) (st : State) :
  settled st -> settled (set_heap h st).
Proof. intros Hst. exact Hst. Qed.

End Plays.

Section Frozen.
Context `{Engine : ChessEngine}.

Lemma setting_changes_cells (changes : list Event) (st : State) :
  Forall setting_change changes ->
  exists f, steps changes st = set_cells f st.
Proof.
  intros Hall. revert st.
  induction Hall as [|ev changes Hev _ IH]; intros st.
  - exists (fun env => env). now destruct st.
  - change (steps (ev :: changes) st) with (steps changes (step ev st)).
    destruct (IH (step ev st)) as [f Hf]. rewrite Hf.
    destruct ev; try contradiction; cbn [step];
      eexists (fun env => f (_ env)); reflexivity.
Qed.

(** X20.  The loop keeps the settings of the render that started it. A wake-up
    runs the closure it was armed with: whatever models and prompts have been
    chosen since, the request names the model of the closure's slot for the
    side to move and carries the closure's prompts; the position asked about
    is the one the closure's game is in now. *)
Theorem loop_settings_frozen (st : State) (id : nat) (closure : Env)
    (changes : list Event) :
  autoPlayRef st = true ->
  find_id id (timers st) = Some closure ->
  ~ Words.terminal (position_of st (game closure)) ->
  Forall setting_change changes ->
  exists w,
    pending (step (TimerFires id) (steps changes st))
    = pending st ++ [(next_request st, w)]
    /\ model_asked w = model_for closure (turn (position_of st (game closure)))
    /\ user_sent w
       = request_text (userPrompt closure) (pgn (position_of st (game closure)))
    /\ (useChatCompletions (model_asked w) = true ->
        system_sent w = Some (systemPrompt closure)).
Proof.
  intros Hon Htimer Hlive Hall.
  destruct (setting_changes_cells changes st Hall) as [f ->].
  cbn [step]. change (timers (set_cells f st)) with (timers st).
  rewrite Htimer. unfold dispatch.
  rewrite run_wakeup by exact Hon. rewrite run_bind.
  change (position_of (set_timers _ (set_cells f st)) (game closure))
    with (position_of st (game closure)).
  destruct (useChatCompletions
              (model_for closure (turn (position_of st (game closure)))))
    eqn:Hapi.
  - rewrite run_chatCompletionsQuery_live by exact Hlive.
    cbn [settle then_wait]. rewrite pending_commit. cbn. eexists.
    split; [reflexivity|]. cbn. now split_and!.
  - rewrite run_completionsQuery_live by exact Hlive.
    cbn [settle then_wait]. rewrite pending_commit. cbn. eexists.
    split; [reflexivity|]. cbn. split_and!; try reflexivity. congruence.
Qed.

End Frozen.

(** ** The further properties on concrete input *)

Lemma extract_choice_plain_witness :
  extract_choice Toy.REPLY_E4 = Some (js "e4")
  /\ ~ In SPACE (js "e4") /\ ~ In PERIOD (js "e4").
Proof.
  split; [reflexivity|].
  exact (extract_choice_plain Toy.REPLY_E4 (js "e4") eq_refl).
Defined.

Lemma extract_choice_padding_witness :
  let pre := [SPACE; NEWLINE] in
  let post := [9; SPACE] in
  (Words.all_whitespace pre /\ Words.all_whitespace post)
  /\ trim (pre ++ Toy.REPLY_E4 ++ post) = trim Toy.REPLY_E4
  /\ extract_choice (pre ++ Toy.REPLY_E4 ++ post) = extract_choice Toy.REPLY_E4.
Proof.
  intros pre post.
  assert (Hpre : Words.all_whitespace pre) by (repeat constructor).
  assert (Hpost : Words.all_whitespace post) by (repeat constructor).
  split; [now split|].
  exact (extract_choice_padding pre Toy.REPLY_E4 post Hpre Hpost).
Defined.

Lemma empty_piece_blocks_witness :
  let number := js "1." in
  let rest := js "e4" in
  (Words.has_period number
   /\ ~ In SPACE number
   /\ Words.clean_ends (number ++ SPACE :: SPACE :: rest))
  /\ js "e4" ∈ moves (start (ChessEngine := Toy.restoring))
  /\ extract_choice (number ++ SPACE :: SPACE :: rest) = Some []
  /\ choose (moves (start (ChessEngine := Toy.restoring)))
       (number ++ SPACE :: SPACE :: rest) = None.
Proof.
  intros number rest.
  assert (Hperiod : Words.has_period number) by (right; left; reflexivity).
  assert (Hspace : ~ In SPACE number)
    by (intros [H|[H|[]]]; discriminate).
  assert (Hends : Words.clean_ends (number ++ SPACE :: SPACE :: rest)).
  { split.
    - intros c t' [= <- _]. reflexivity.
    - intros c t' H.
      change (number ++ SPACE :: SPACE :: rest)
        with ((number ++ [SPACE; SPACE; 101]) ++ [52]) in H.
      apply app_inj_tail in H as [_ <-]. reflexivity. }
  split; [now split_and!|].
  split; [left|].
  exact (empty_piece_blocks number rest _ Hperiod Hspace Hends).
Defined.

Lemma toy_page_settled (played : list jsstring) :
  settled (Toy.page_after Toy.restoring played).
Proof. exact (settled_set_heap _ _ settled_mounted). Defined.

Lemma toy_black_live :
  ~ Words.terminal (current_position (Toy.page_after Toy.restoring [js "e4"])).
Proof. intros [H|[H|H]]; vm_compute in H; discriminate. Defined.

Lemma force_move_single_shot_witness :
  let st := Toy.page_after Toy.restoring [] in
  (settled st
   /\ ~ Words.terminal (current_position st)
   /\ choose (moves (current_position st)) Toy.REPLY_REFUSAL = None
   /\ useChatCompletions (model (cells st)) = false)
  /\ step (ComplResolves (next_request st) Toy.REPLY_REFUSAL)
       (step ClickForceMove st)
     = set_next_request (S (next_request st))
         (set_cells (with_lastMessage MSG_TRY_AGAIN) st).
Proof.
  intros st.
  assert (Hnone : choose (moves (current_position st)) Toy.REPLY_REFUSAL = None)
    by reflexivity.
  split; [split_and!; (exact (toy_page_settled []) || exact toy_start_live
                       || reflexivity)|].
  exact (proj1 (proj2 (force_move_single_shot st Toy.REPLY_REFUSAL
                         (toy_page_settled []))
                  toy_start_live Hnone) eq_refl).
Defined.

Lemma force_move_applies_witness :
  let st := Toy.page_after Toy.restoring [] in
  (settled st
   /\ ~ Words.terminal (current_position st)
   /\ useChatCompletions (model (cells st)) = false
   /\ choose (moves (current_position st)) Toy.REPLY_E4 = Some (js "e4"))
  /\ current_position
       (step (ComplResolves (next_request st) Toy.REPLY_E4)
          (step ClickForceMove st))
     = [js "e4"]
  /\ lastMessage
       (cells (step (ComplResolves (next_request st) Toy.REPLY_E4)
                 (step ClickForceMove st)))
     = msg_suggests (js "e4").
Proof.
  intros st.
  split; [split_and!; (exact (toy_page_settled []) || exact toy_start_live
                       || reflexivity)|].
  destruct (force_move_applies st Toy.REPLY_E4 (js "e4") (toy_page_settled [])
              toy_start_live eq_refl eq_refl)
    as (_ & Hposition & Hcells & _).
  split; [exact Hposition|]. now rewrite Hcells.
Defined.

Lemma stale_suggestion_reported_witness :
  let st := Toy.page_after Toy.restoring [js "e4"] in
  let env := cells st in
  (Words.rejects_cleanly
   /\ move_or_null (Some (js "e4")) = Some (js "e4")
   /\ fst (move (position_of st (game env)) (SanMove (js "e4"))) = None)
  /\ (forall g, position_of (dispatch (makeMoveAfter env (Some (js "e4"))) st) g
                = position_of st g)
  /\ lastMessage (cells (dispatch (makeMoveAfter env (Some (js "e4"))) st))
     = msg_suggests (js "e4").
Proof.
  intros st env.
  split; [split_and!; (exact toy_rejects_cleanly || reflexivity)|].
  exact (proj1 (stale_suggestion_reported env (Some (js "e4")) (js "e4") st
                  toy_rejects_cleanly eq_refl eq_refl)).
Defined.

Lemma toy_switched_on_settled :
  settled (step ClickAutoPlay (Toy.page_after Toy.restoring [])).
Proof. exact (step_settled ClickAutoPlay _ (toy_page_settled [])). Defined.

Lemma toy_switched_on_live :
  ~ Words.terminal
      (position_of (step ClickAutoPlay (Toy.page_after Toy.restoring []))
         (game Toy.first_closure)).
Proof. intros [H|[H|H]]; vm_compute in H; discriminate. Defined.

Lemma wakeup_ends_silently_witness :
  let st := step ClickAutoPlay (Toy.page_after Toy.restoring []) in
  (settled st
   /\ find_id 0 (timers st) = Some Toy.first_closure
   /\ isAutoPlay (cells st) = true
   /\ ~ Words.terminal (position_of st (game Toy.first_closure)))
  /\ forall reason,
       step (RequestRejects (next_request st) reason) (step (TimerFires 0) st)
       = set_next_request (S (next_request st))
           (set_timers (drop_id 0 (timers st)) st).
Proof.
  intros st.
  split; [split_and!; (exact toy_switched_on_settled
                       || exact toy_switched_on_live || reflexivity)|].
  exact (proj1 (wakeup_ends_silently st 0 Toy.first_closure
                  toy_switched_on_settled eq_refl eq_refl toy_switched_on_live)).
Defined.

Lemma wakeup_plays_move_witness :
  let st := step ClickAutoPlay (Toy.page_after Toy.restoring []) in
  (settled st
   /\ isAutoPlay (cells st) = true
   /\ find_id 0 (timers st) = Some Toy.first_closure
   /\ ~ Words.terminal (position_of st (game Toy.first_closure))
   /\ choose (moves (position_of st (game Toy.first_closure))) Toy.REPLY_E4
      = Some (js "e4"))
  /\ current_position
       (step (ComplResolves (next_request st) Toy.REPLY_E4)
          (step (TimerFires 0) st))
     = [js "e4"]
  /\ timers (step (ComplResolves (next_request st) Toy.REPLY_E4)
               (step (TimerFires 0) st))
     = [(1%nat, Toy.first_closure)].
Proof.
  intros st.
  split; [split_and!; (exact toy_switched_on_settled
                       || exact toy_switched_on_live || reflexivity)|].
  destruct (wakeup_plays_move st 0 Toy.first_closure Toy.REPLY_E4 (js "e4")
              toy_switched_on_settled eq_refl eq_refl toy_switched_on_live
              eq_refl eq_refl)
    as (Hposition & _ & _ & Htimers & _).
  split; [exact Hposition | exact Htimers].
Defined.

Lemma toggle_on_then_off_witness :
  let st := Toy.page_after Toy.restoring [] in
  (settled st /\ isAutoPlay (cells st) = false)
  /\ timers (step ClickAutoPlay st) = [(0%nat, with_isAutoPlay true (cells st))]
  /\ autoPlayRef (step ClickAutoPlay st) = true
  /\ step ClickAutoPlay (step ClickAutoPlay st)
     = set_next_timer 1 (set_cells (with_isAutoPlay false) st).
Proof.
  intros st. split; [split; [exact (toy_page_settled []) | reflexivity]|].
  destruct (toggle_on_then_off st (toy_page_settled []) eq_refl)
    as ((_ & Href & Htimers & _) & Hback).
  split; [exact Htimers|]. split; [exact Href | exact Hback].
Defined.

Lemma toy_between_settled : settled (Toy.between_wakeups 1).
Proof.
  rewrite <- (refused_never_halts 1).
  exact (steps_settled _ _ (toy_page_settled [])).
Defined.

Lemma toggle_off_then_on_witness :
  let st := Toy.between_wakeups 1 in
  (settled st
   /\ isAutoPlay (cells st) = true
   /\ effectTimeoutId st = Some 0%nat
   /\ find_id 0 (timers st) = None)
  /\ List.map fst (timers st) = [1%nat]
  /\ List.map fst (timers (step ClickAutoPlay (step ClickAutoPlay st)))
     = [1%nat; 2%nat]
  /\ autoPlayRef (step ClickAutoPlay (step ClickAutoPlay st)) = true.
Proof.
  intros st.
  split; [split_and!; (exact toy_between_settled || reflexivity)|].
  destruct (toggle_off_then_on st 0 toy_between_settled eq_refl eq_refl eq_refl)
    as (_ & _ & Htimers & Href).
  split; [reflexivity|]. split; [now rewrite Htimers | exact Href].
Defined.

Lemma toy_stopped_settled :
  settled (steps Toy.switch_off_in_flight (Toy.page_after Toy.restoring [])).
Proof. exact (steps_settled _ _ (toy_page_settled [])). Defined.

Lemma wakeup_after_stop_witness :
  let st := steps Toy.switch_off_in_flight (Toy.page_after Toy.restoring []) in
  (settled st
   /\ isAutoPlay (cells st) = false
   /\ find_id 1 (timers st) = Some Toy.first_closure)
  /\ step (TimerFires 1) st = set_timers (drop_id 1 (timers st)) st.
Proof.
  intros st.
  assert (Hoff : isAutoPlay (cells st) = false) by (vm_compute; reflexivity).
  assert (Htimer : find_id 1 (timers st) = Some Toy.first_closure)
    by (vm_compute; reflexivity).
  split; [split_and!; (exact toy_stopped_settled || assumption)|].
  exact (wakeup_after_stop st 1 Toy.first_closure toy_stopped_settled Hoff Htimer).
Defined.

Lemma drop_then_propose_witness :
  let st := Toy.page_after Toy.restoring [js "e4"] in
  let after := step (PieceDrop (fe, r7) (fe, r5) (js "bP")) st in
  (settled st
   /\ fst (move (current_position st) (ShortMove (fe, r7) (fe, r5) (Some prom_q)))
      = Some (js "e5"))
  /\ current_position after = [js "e4"; js "e5"]
  /\ isAutoPlay (cells after) = false
  /\ autoPlayRef after = false
  /\ exists w,
       pending after = pending st ++ [(next_request st, w)]
       /\ model_asked w = model (cells st)
       /\ user_sent w
          = request_text (userPrompt (cells st))
              (pgn (ChessEngine := Toy.restoring) [js "e4"; js "e5"]).
Proof.
  intros st after.
  split; [split; [exact (toy_page_settled [js "e4"]) | reflexivity]|].
  destruct (drop_then_propose st (fe, r7) (fe, r5) (js "bP") (js "e5")
              (toy_page_settled [js "e4"]) eq_refl)
    as (_ & Hposition & Hflag & Href & Hasked & _).
  split; [exact Hposition|]. split; [exact Hflag|]. split; [exact Href|].
  apply Hasked. intros [H|[H|H]]; vm_compute in H; discriminate.
Defined.

Lemma reset_then_move_witness :
  let st := Toy.page_after Toy.restoring [js "e4"] in
  let closure := cells st in
  (inst (game closure) <> next_inst st
   /\ move_or_null (Some (js "e5")) = Some (js "e5"))
  /\ current_position (step ClickReset st) = []
  /\ current_position
       (dispatch (makeMoveAfter closure (Some (js "e5"))) (step ClickReset st))
     = [js "e4"; js "e5"]
  /\ current_position
       (dispatch (autoPlayAfter closure (Some (js "e5"))) (step ClickReset st))
     = [js "e4"; js "e5"].
Proof.
  intros st closure.
  assert (Hold : inst (game closure) <> next_inst st) by discriminate.
  split; [now split|].
  destruct (reset_then_move st closure (Some (js "e5")) (js "e5") Hold eq_refl)
    as ((Hfresh & _) & Hmake & Hauto).
  split; [exact Hfresh|]. split; [exact Hmake | exact Hauto].
Defined.

Lemma finished_game_polled_witness :
  let board := Toy.page_after Toy.restoring [js "e4"; js "e5"; js "Nf3"; js "Nf6"] in
  let closure := with_isAutoPlay true (cells board) in
  let st := set_autoPlayRef true
              (set_next_timer 1
                 (set_timers [(0%nat, closure)]
                    (set_cells (with_isAutoPlay true) board))) in
  (autoPlayRef st = true
   /\ timers st = [(0%nat, closure)]
   /\ next_timer st = 1%nat
   /\ Words.terminal (position_of st (game closure))
   /\ retryCount closure < 3)
  /\ steps (wakeups 0 3) st
     = set_next_timer 4
         (set_timers [(3%nat, closure)]
            (set_cells (with_retryCount (retryCount closure + 1)) st)).
Proof.
  intros board closure st.
  assert (Hterm : Words.terminal (position_of st (game closure)))
    by (left; vm_compute; reflexivity).
  split; [split_and!; (exact Hterm || reflexivity)|].
  exact (finished_game_polled 2 st 0 closure eq_refl eq_refl eq_refl Hterm eq_refl).
Defined.

Lemma system_prompt_sent_not_shown_witness :
  let st := set_cells (with_model gpt_4) (Toy.page_after Toy.restoring []) in
  let typed := js "Play the Sicilian." in
  (settled st
   /\ useChatCompletions (model (cells st)) = true
   /\ ~ Words.terminal (current_position st))
  /\ systemPromptBoxValue (cells (step (ChangeSystemPrompt typed) st))
     = DEFAULT_SYSTEM_PROMPT
  /\ exists w,
       pending (step ClickForceMove (step (ChangeSystemPrompt typed) st))
       = pending st ++ [(next_request st, w)]
       /\ system_sent w = Some typed.
Proof.
  intros st typed.
  assert (Hst : settled st) by exact (toy_page_settled []).
  split; [split_and!; (exact Hst || exact toy_start_live || reflexivity)|].
  exact (system_prompt_sent_not_shown st typed Hst eq_refl toy_start_live).
Defined.

Lemma requests_match_api_witness :
  let st := Toy.page_after Toy.restoring [] in
  exists w st',
    run (makeMove (cells st)) st = Suspended w st'
    /\ api_matches w
    /\ model_asked w = model (cells st).
Proof.
  intros st.
  destruct (run (makeMove (cells st)) st) as [a st'|e st'|w st'] eqn:Hrun;
    try (vm_compute in Hrun; discriminate).
  exists w, st'. split; [reflexivity|].
  split; [exact (proj1 (requests_match_api (cells st) st) w st' Hrun)|].
  vm_compute in Hrun. injection Hrun as <- _. reflexivity.
Defined.

Lemma queries_return_listed_witness :
  let st := Toy.page_after Toy.restoring [] in
  exists request k st0,
    run (completionsQuery (model (cells st)) (game (cells st))
           (userPrompt (cells st))) st
    = Suspended (WaitCompl request k) st0
    /\ run (k Toy.REPLY_E4) st0 = Done (Some (js "e4")) st0
    /\ js "e4" ∈ moves (position_of st (game (cells st))).
Proof.
  intros st.
  assert (Hrun : exists request k st0,
             run (completionsQuery (model (cells st)) (game (cells st))
                    (userPrompt (cells st))) st
             = Suspended (WaitCompl request k) st0
             /\ run (k Toy.REPLY_E4) st0 = Done (Some (js "e4")) st0).
  { eexists _, _, _. split; reflexivity. }
  destruct Hrun as (request & k & st0 & Hrun & Hreply).
  exists request, k, st0. split; [exact Hrun|]. split; [exact Hreply|].
  destruct (queries_return_listed st (model (cells st)) (game (cells st)) []
              (userPrompt (cells st)) (js "e4"))
    as (_ & _ & _ & Hcompl).
  exact (Hcompl request k st0 Toy.REPLY_E4 st0 st0 Hrun Hreply).
Defined.

Lemma loop_settings_frozen_witness :
  let st := step ClickAutoPlay (Toy.page_after Toy.restoring []) in
  let changes := [ChangeModel gpt_4; ChangeUserPrompt (js "Moves so far: ")] in
  (autoPlayRef st = true
   /\ find_id 0 (timers st) = Some Toy.first_closure
   /\ ~ Words.terminal (position_of st (game Toy.first_closure))
   /\ Forall setting_change changes)
  /\ model (cells (steps changes st)) = gpt_4
  /\ exists w,
       pending (step (TimerFires 0) (steps changes st)) = [(0%nat, w)]
       /\ model_asked w = DEFAULT_MODEL
       /\ user_sent w = request_text DEFAULT_USER_PROMPT []
       /\ system_sent w = None.
Proof.
  intros st changes.
  assert (Hall : Forall setting_change changes) by (repeat constructor).
  split; [split_and!; (exact toy_switched_on_live || exact Hall || reflexivity)|].
  split; [reflexivity|].
  destruct (loop_settings_frozen st 0 Toy.first_closure changes eq_refl eq_refl
              toy_switched_on_live Hall)
    as (w & Hpending & Hmodel & Huser & _).
  exists w. split; [exact Hpending|]. split; [exact Hmodel|].
  split; [exact Huser|].
  destruct w as [request k|request k]; [|reflexivity].
  cbn in Hmodel. vm_compute in Hmodel. discriminate.
Defined.
